(** * pydocspec: name resolution over a tree of API objects

    A shallow embedding of [pydocspec/__init__.py]: the entity tree with its
    registry ([ApiObjectsRoot.all_objects]), the name expansion engine
    ([ApiObject.expand_name], [resolve_name], [_local_to_full_name],
    [_resolve_indirection]), the inheritance scan ([Class.resolved_bases],
    [all_bases], [all_base_classes], [find]) and the two module properties
    parsed from literals ([Module.all], [Module.docformat]).

    Python objects live in an arena: an object is identified by its index
    in [objs], and the [parent] and [members] attributes hold indices. *)

From Stdlib Require Import String Ascii List ZArith Lia Bool DecimalString.
From stdpp Require Import base option list strings gmap.

Set Warnings "-register-all".

Open Scope string_scope.

(** ** Outcomes

    A Python call either returns, raises, or does not return at all
    (unbounded recursion or an endless loop).  The last case is what a
    step-indexed function yields when its index is exhausted. *)

Inductive exn :=
| AssertionError
| AttributeError
| UnboundLocalError
| ValueError
| ReferenceError.

Inductive outcome (A : Type) :=
| Done (a : A)
| Raised (e : exn)
| Diverged.

Arguments Done {A} a.
Arguments Raised {A} e.
Arguments Diverged {A}.

Definition bind {A B} (c : outcome A) (k : A -> outcome B) : outcome B :=
  match c with
  | Done a => k a
  | Raised e => Raised e
  | Diverged => Diverged
  end.

Notation "'do' x <- c ; k" := (bind c (fun x => k))
  (at level 10, x name, c at level 100, k at level 200).

Definition is_done {A} (c : outcome A) : bool :=
  match c with Done _ => true | _ => false end.

(** ** Dotted names *)

(** Modelled from the spec: [dottedname.DottedName] is not among the
    sources.  The spec has the name split on its separator into an ordered
    list of parts and joined back with the separator; [DottedName pieces]
    is the identifier list of a [DottedName] built from [pieces],
    [str_DottedName] its [str]. *)
Fixpoint split_dot (s : string) : list string :=
  match s with
  | EmptyString => [EmptyString]
  | String c s' =>
      if Ascii.eqb c "."%char then EmptyString :: split_dot s'
      else match split_dot s' with
           | [] => [String c EmptyString]
           | p :: ps => String c p :: ps
           end
  end.

Definition DottedName (pieces : list string) : list string :=
  flat_map split_dot pieces.

Definition str_DottedName (d : list string) : string := String.concat "." d.

(** A name without a dot is a single part. *)
Fixpoint dot_free (s : string) : bool :=
  match s with
  | EmptyString => true
  | String c s' => negb (Ascii.eqb c ".") && dot_free s'
  end.

(** ** Expression trees

    The fragment of [ast.expr] that the code inspects: names and attribute
    chains (aliases), list and tuple displays ([__all__]), constants, and
    calls standing for every node that is none of these. *)

Inductive constant :=
| CStr (s : string)
| CInt (z : Z)
| CBool (b : bool)
| CNone.

Inductive expr :=
| EConstant (c : constant)
| EName (id : string)
| EAttribute (value : expr) (attr : string)
| EList (elts : list expr)
| ETuple (elts : list expr)
| ECall (func : expr) (args : list expr).

Inductive pyval :=
| VStr (s : string)
| VInt (z : Z)
| VBool (b : bool)
| VNone
| VList (l : list pyval)
| VTuple (l : list pyval).

(** Modelled from the spec: [astutils.node2dottedname] is not among the
    sources.  An alias is a binding whose value "is itself a plain
    possibly-dotted name reference": a name, or attributes of one. *)
Fixpoint expr2dottedname (e : expr) : option (list string) :=
  match e with
  | EName id => Some [id]
  | EAttribute v attr =>
      match expr2dottedname v with
      | Some l => Some (l ++ [attr])%list
      | None => None
      end
  | _ => None
  end.

Definition node2dottedname (node : option expr) : option (list string) :=
  match node with
  | Some e => expr2dottedname e
  | None => None
  end.

(** [ast.literal_eval] on this fragment: constants and displays of
    literals evaluate, every other node is a [ValueError]; so is [None]
    in place of a node. *)
Fixpoint literal_eval_node (e : expr) : outcome pyval :=
  let fix convert_all (l : list expr) : outcome (list pyval) :=
    match l with
    | [] => Done []
    | x :: xs =>
        do v <- literal_eval_node x;
        do vs <- convert_all xs;
        Done (v :: vs)
    end in
  match e with
  | EConstant (CStr s) => Done (VStr s)
  | EConstant (CInt z) => Done (VInt z)
  | EConstant (CBool b) => Done (VBool b)
  | EConstant CNone => Done VNone
  | EList elts => do vs <- convert_all elts; Done (VList vs)
  | ETuple elts => do vs <- convert_all elts; Done (VTuple vs)
  | EName _ | EAttribute _ _ | ECall _ _ => Raised ValueError
  end.

Definition literal_eval (node : option expr) : outcome pyval :=
  match node with
  | Some e => literal_eval_node e
  | None => Raised ValueError
  end.

(** ** The entity tree *)

Definition oid := nat.

(** [docspec.Location], with the two fields the code builds it from
    ([docspec.Location(filename='<unknown>', lineno=-1)]). *)
Record Location := mkLocation { filename : string; lineno : Z }.

(** The variants of an API object with the attributes each adds.  A
    [Data] carries its [value] text together with the expression that
    [astutils.extract_expr] parses it into. *)
Inductive Kind :=
| KModule
| KClass (bases : list string)
| KFunction
| KData (value : option (string * expr))
| KIndirection (target : string).

Record ApiObject := mkApiObject {
  name : string;
  kind : Kind;
  parent : option oid;
  members : list oid;
  docspec_location : option Location
}.

(** [ApiObjectsRoot]: the arena of objects and the registry
    [all_objects], a mapping from full name to object. *)
Record ApiObjectsRoot := mkRoot {
  objs : list ApiObject;
  all_objects : gmap string oid
}.

(** Modelled from the spec: [dupsafedict.DuplicateSafeDict] is not among
    the sources.  "Insertion never overwrites an existing key": the first
    object registered under a name wins and later ones are not indexed. *)
Definition dsd_setitem (key : string) (v : oid) (d : gmap string oid)
  : gmap string oid :=
  match d !! key with
  | Some _ => d
  | None => <[key := v]> d
  end.

Definition dsd_get (key : string) (d : gmap string oid) : option oid :=
  d !! key.

Definition register (key : string) (v : oid) (st : ApiObjectsRoot)
  : ApiObjectsRoot :=
  mkRoot (objs st) (dsd_setitem key v (all_objects st)).

(** ** Attributes and cached properties *)

Section Tree.

Variable st : ApiObjectsRoot.

(** Dereferencing an index.  Indices outside the arena denote no Python
    object; well-formed trees ([wf_store] below) have none. *)
Definition get_obj (i : oid) : outcome ApiObject :=
  match objs st !! i with
  | Some o => Done o
  | None => Raised ReferenceError
  end.

Definition is_Module (o : ApiObject) : bool :=
  match kind o with KModule => true | _ => false end.

Definition is_Class (o : ApiObject) : bool :=
  match kind o with KClass _ => true | _ => false end.

Definition is_Data (o : ApiObject) : bool :=
  match kind o with KData _ => true | _ => false end.

Definition is_Indirection (o : ApiObject) : bool :=
  match kind o with KIndirection _ => true | _ => false end.

(** [HasMembers = (Module, Class)], used with [isinstance]. *)
Definition HasMembers (o : ApiObject) : bool := is_Module o || is_Class o.

(** [ApiObject.location]: never absent. *)
Definition location (o : ApiObject) : Location :=
  match docspec_location o with
  | Some l => l
  | None => mkLocation "<unknown>" (-1)
  end.

(** [docspec.ApiObject.path]: the objects from the root down to [cur].
    The [while] loop follows [parent] links; [n] bounds the number of
    links followed. *)
Fixpoint path_walk (n : nat) (cur : oid) : outcome (list ApiObject) :=
  match n with
  | 0 => Diverged
  | S n' =>
      do o <- get_obj cur;
      match parent o with
      | None => Done [o]
      | Some p => do above <- path_walk n' p; Done (above ++ [o])%list
      end
  end.

(** A chain of parents without a cycle has at most [length (objs st)]
    links, which is the bound used for every walk towards the root. *)
Definition depth_bound : nat := length (objs st).

Definition path (self : oid) : outcome (list ApiObject) :=
  path_walk depth_bound self.

Definition dotted_name (self : oid) : outcome (list string) :=
  do p <- path self; Done (DottedName (map name p)).

Definition full_name (self : oid) : outcome string :=
  do d <- dotted_name self; Done (str_DottedName d).

(** [ApiObject.module]. *)
Fixpoint module_walk (n : nat) (self : oid) : outcome oid :=
  match n with
  | 0 => Diverged
  | S n' =>
      do o <- get_obj self;
      if is_Module o then Done self
      else match parent o with
           | None => Raised AssertionError
           | Some p => module_walk n' p
           end
  end.

Definition module (self : oid) : outcome oid := module_walk depth_bound self.

(** [ApiObject.get_member]: the first member with that name. *)
Definition has_name (nm : string) (m : oid) : bool :=
  match objs st !! m with
  | Some mo => String.eqb (name mo) nm
  | None => false
  end.

Definition get_member (o : ApiObject) (nm : string) : option oid :=
  if HasMembers o then List.find (has_name nm) (members o) else None.

(** [Data.value_ast] and [Data.is_alias]. *)
Definition value_ast (o : ApiObject) : option expr :=
  match kind o with
  | KData (Some (v, e)) => if String.eqb v EmptyString then None else Some e
  | _ => None
  end.

Definition is_alias (o : ApiObject) : bool :=
  match node2dottedname (value_ast o) with
  | Some _ => true
  | None => false
  end.

(** [Indirection] objects met during resolution are members of the tree,
    or built by [Data._alias_indirection]: one per alias, cached on it,
    with its name, its parent and its value text as target.  Either is
    identified by the tree object it belongs to, so that a chain of
    followed indirections is a list of indices and the parent and full
    name of an indirection are those of its object.  [!=] on two
    indirections and [==] on two modules compare the fields of docspec
    objects, their location among them; distinct objects of a tree differ
    there, and the comparison is taken as one of indices. *)
Definition _alias_indirection (m : oid) (mo : ApiObject) : outcome oid :=
  if is_alias mo then
    match kind mo with
    | KData (Some _) => Done m
    | _ => Raised AssertionError
    end
  else Raised AssertionError.

Definition indirection_target (o : ApiObject) : outcome string :=
  match kind o with
  | KIndirection t => Done t
  | KData (Some (v, _)) => Done v
  | _ => Raised AttributeError
  end.

(** [x or y] on an optional string: [None] and the empty string are
    false. *)
Definition or_else (x : option string) (y : outcome string) : outcome string :=
  match x with
  | Some s => if String.eqb s EmptyString then y else Done s
  | None => y
  end.

Definition _RESOLVE_ALIAS_MAX_RECURSE : nat := 5.

(** Truth value of a list. *)
Definition truthy {A} (l : list A) : bool :=
  match l with [] => false | _ :: _ => true end.

(** ** The name expansion engine

    The bodies of the mutually recursive methods, over the recursive
    calls they make: [expand_rec] stands for [expand_name] and [find_rec]
    for the scan of a base class in [find].  [_indirections] is [None] or
    a list and is only tested for truth and extended, so that [None] and
    the empty list are one value here. *)

Section Bodies.

Variable expand_rec : oid -> string -> bool -> list oid -> outcome string.
Variable find_rec : oid -> string -> outcome (option oid).

Definition _resolve_indirection (indirection : oid) (_indirections : list oid)
  : outcome (option string) :=
  if truthy _indirections
     && Nat.ltb _RESOLVE_ALIAS_MAX_RECURSE (length _indirections)
  then
    match _indirections with
    | first :: _ => do fn <- full_name first; Done (Some fn)
    | [] => Raised AssertionError
    end
  else
    do io <- get_obj indirection;
    do target <- indirection_target io;
    match parent io with
    | None => Raised AssertionError
    | Some ctx =>
        if truthy _indirections
           && negb (Nat.eqb (List.last _indirections indirection) indirection)
           || negb (truthy _indirections)
        then
          do s <- expand_rec ctx target true
                    (_indirections ++ [indirection])%list;
          Done (Some s)
        else
          do co <- get_obj ctx;
          match parent co with
          | Some p =>
              do cm <- module ctx;
              do pm <- module p;
              if Nat.eqb cm pm then
                do s <- expand_rec p target true
                          (_indirections ++ [indirection])%list;
                Done (Some s)
              else Done None
          | None => Done None
          end
    end.

(** The branch [if member:] of [_local_to_full_name], for the member
    [m] found. *)
Definition member_full_name (m : oid) (mo : ApiObject) (follow_aliases : bool)
    (_indirections : list oid) : outcome string :=
  if follow_aliases && is_Data mo && is_alias mo then
    do ind <- _alias_indirection m mo;
    do r <- _resolve_indirection ind _indirections;
    or_else r (full_name m)
  else if is_Indirection mo then
    do r <- _resolve_indirection m _indirections;
    or_else r (full_name m)
  else full_name m.

Fixpoint _local_to_full_name (n : nat) (self : oid) (nm : string)
    (follow_aliases : bool) (_indirections : list oid) : outcome string :=
  match n with
  | 0 => Diverged
  | S n' =>
      do o <- get_obj self;
      if negb (HasMembers o) then
        match parent o with
        | None => Raised AssertionError
        | Some p => _local_to_full_name n' p nm follow_aliases _indirections
        end
      else
        match get_member o nm with
        | Some m =>
            do mo <- get_obj m;
            member_full_name m mo follow_aliases _indirections
        | None =>
            if is_Class o then
              match parent o with
              | None => Raised AssertionError
              | Some p => _local_to_full_name n' p nm follow_aliases _indirections
              end
            else Done nm
        end
  end.

(** [str(DottedName(full_name, *parts[i + 1:]))]. *)
Definition finish (fn : string) (rest : list string) : outcome string :=
  Done (str_DottedName (DottedName (fn :: rest))).

(** The [for i, part in enumerate(parts)] loop of [expand_name], from
    index [i] on, with [ctx] the context of the part at [i]. *)
Fixpoint expand_loop (ctx : oid) (i : nat) (parts : list string)
    (follow_aliases : bool) (_indirections : list oid) : outcome string :=
  match parts with
  | [] => Raised UnboundLocalError
  | part :: rest =>
      do fn <- _local_to_full_name depth_bound ctx part follow_aliases
                 _indirections;
      do r <-
        (if String.eqb fn part && negb (Nat.eqb i 0) then
           do co <- get_obj ctx;
           do fn' <-
             (if is_Class co then
                do f <- find_rec ctx part;
                match f with
                | Some f => full_name f
                | None => Done fn
                end
              else Done fn);
           if String.eqb fn' part then
             do cfn <- full_name ctx;
             Done (cfn ++ "." ++ part, true)
           else Done (fn', false)
         else Done (fn, false));
      let '(fn, stop) := r in
      if stop : bool then finish fn rest
      else
        match dsd_get fn (all_objects st) with
        | None => finish fn rest
        | Some nxt =>
            match rest with
            | [] => finish fn []
            | _ :: _ => expand_loop nxt (S i) rest follow_aliases _indirections
            end
        end
  end.

Definition expand_name_body (self : oid) (nm : string) (follow_aliases : bool)
    (_indirections : list oid) : outcome string :=
  expand_loop self 0 (DottedName [nm]) follow_aliases _indirections.

(** [Class.resolved_bases]: for each base, the object it resolves to, or
    else its expanded name. *)
Fixpoint resolve_bases (p : option oid) (bases : list string)
  : outcome (list (oid + string)) :=
  match bases with
  | [] => Done []
  | base :: more =>
      match p with
      | None => Raised AttributeError
      | Some p' =>
          do n1 <- expand_rec p' base true [];
          do b <- match dsd_get n1 (all_objects st) with
                  | Some x => Done (inl x)
                  | None => do n2 <- expand_rec p' base true []; Done (inr n2)
                  end;
          do bs <- resolve_bases p more;
          Done (b :: bs)
      end
  end.

Definition resolved_bases_body (self : oid) : outcome (list (oid + string)) :=
  do o <- get_obj self;
  match kind o with
  | KClass bases => resolve_bases (parent o) bases
  | _ => Raised AttributeError
  end.

(** [Class.find]: the loop over the generator [all_base_classes(True)],
    left at the first class with a member of that name.  The generator
    yields the class itself, then for each resolved base that is a class
    what the generator of that base yields; what it yields after the
    first match is never computed. *)
Fixpoint find_in_bases (bs : list (oid + string)) (nm : string)
  : outcome (option oid) :=
  match bs with
  | [] => Done None
  | inl b :: more =>
      do bo <- get_obj b;
      if is_Class bo then
        do r <- find_rec b nm;
        match r with
        | Some m => Done (Some m)
        | None => find_in_bases more nm
        end
      else find_in_bases more nm
  | inr _ :: more => find_in_bases more nm
  end.

Definition find_body (self : oid) (nm : string) : outcome (option oid) :=
  do o <- get_obj self;
  match get_member o nm with
  | Some m => Done (Some m)
  | None =>
      do bs <- resolved_bases_body self;
      find_in_bases bs nm
  end.

End Bodies.

End Tree.

(** [expand_name] and [find], indexed by the depth of nested calls
    allowed. *)
Fixpoint expand_name (fuel : nat) (st : ApiObjectsRoot) (self : oid)
    (nm : string) (follow_aliases : bool) (_indirections : list oid)
    {struct fuel} : outcome string :=
  match fuel with
  | 0 => Diverged
  | S f =>
      expand_name_body st (expand_name f st) (find f st) self nm
        follow_aliases _indirections
  end
with find (fuel : nat) (st : ApiObjectsRoot) (self : oid) (nm : string)
    {struct fuel} : outcome (option oid) :=
  match fuel with
  | 0 => Diverged
  | S f => find_body st (expand_name f st) (find f st) self nm
  end.

Definition resolve_name (fuel : nat) (st : ApiObjectsRoot) (self : oid)
    (nm : string) (follow_aliases : bool) : outcome (option oid) :=
  do n <- expand_name fuel st self nm follow_aliases [];
  Done (dsd_get n (all_objects st)).

Definition resolved_bases (fuel : nat) (st : ApiObjectsRoot) (self : oid)
  : outcome (list (oid + string)) :=
  resolved_bases_body st (expand_name fuel st) self.

(** [Class.all_bases] and [Class.all_base_classes], as the list of what
    the generator yields when it is run to its end. *)
Fixpoint all_bases (fuel : nat) (st : ApiObjectsRoot) (self : oid)
    (include_self : bool) {struct fuel} : outcome (list (oid + string)) :=
  match fuel with
  | 0 => Diverged
  | S f =>
      do bs <- resolved_bases f st self;
      do below <-
        (fix chain (bs : list (oid + string)) : outcome (list (oid + string)) :=
           match bs with
           | [] => Done []
           | b :: more =>
               do ys <-
                 match b with
                 | inl bi =>
                     do bo <- get_obj st bi;
                     if is_Class bo then all_bases f st bi true else Done [b]
                 | inr _ => Done [b]
                 end;
               do zs <- chain more;
               Done (ys ++ zs)%list
           end) bs;
      Done ((if include_self then [inl self] else []) ++ below)%list
  end.

Definition is_Class_item (st : ApiObjectsRoot) (b : oid + string) : bool :=
  match b with
  | inl bi => match objs st !! bi with Some bo => is_Class bo | None => false end
  | inr _ => false
  end.

Definition all_base_classes (fuel : nat) (st : ApiObjectsRoot) (self : oid)
    (include_self : bool) : outcome (list (oid + string)) :=
  do l <- all_bases fuel st self include_self;
  Done (filter (fun b => is_Class_item st b = true) l).

(** The loop of [find] run over a list of yielded items: the member of
    that name in the first class that has one. *)
Fixpoint first_member (st : ApiObjectsRoot) (l : list (oid + string))
    (nm : string) : option oid :=
  match l with
  | [] => None
  | inl b :: more =>
      match objs st !! b with
      | Some bo =>
          if is_Class bo then
            match get_member st bo nm with
            | Some m => Some m
            | None => first_member st more nm
            end
          else first_member st more nm
      | None => first_member st more nm
      end
  | inr _ :: more => first_member st more nm
  end.

(** ** Diagnostics and the properties parsed from literals *)

(** Attribute access on a [Location], which has the attributes
    [filename] and [lineno]. *)
Definition Location_getattr (l : Location) (attr : string) : outcome pyval :=
  if String.eqb attr "filename" then Done (VStr (filename l))
  else if String.eqb attr "lineno" then Done (VInt (lineno l))
  else Raised AttributeError.

Definition dq : string := String (Ascii.ascii_of_nat 34) EmptyString.

Definition type_name (v : pyval) : string :=
  match v with
  | VStr _ => "str"
  | VInt _ => "int"
  | VBool _ => "bool"
  | VNone => "NoneType"
  | VList _ => "list"
  | VTuple _ => "tuple"
  end.

Definition format_Z (z : Z) : string :=
  DecimalString.NilZero.string_of_int (Z.to_int z).

(** Formatting inside an f-string, for the values formatted here. *)
Definition format_value (v : pyval) : string :=
  match v with
  | VStr s => s
  | VInt z => format_Z z
  | VBool true => "True"
  | VBool false => "False"
  | VNone => "None"
  | VList _ | VTuple _ => "..."
  end.

(** [ApiObject._warns]: the message is formatted, then handed to
    [warnings.warn], which records it in [log]. *)
Definition _warns (st : ApiObjectsRoot) (self : oid) (msg : string)
    (log : list string) : outcome (list string) :=
  do fn <- full_name st self;
  do o <- get_obj st self;
  do ln <- Location_getattr (location o) "linenumber";
  Done (log ++ [(fn ++ ":" ++ format_value ln ++ " - " ++ msg)%string])%list.

(** The loop of [Module.all] over the elements of the display. *)
Fixpoint all_names (st : ApiObjectsRoot) (self : oid) (idx : nat)
    (elts : list expr) (names : list string) (log : list string)
  : outcome (list string * list string) :=
  match elts with
  | [] => Done (names, log)
  | item :: more =>
      match literal_eval_node item with
      | Raised ValueError =>
          do log' <- _warns st self
            ("Cannot parse element " ++ format_Z (Z.of_nat idx) ++ " of "
             ++ dq ++ "__all__" ++ dq) log;
          all_names st self (S idx) more names log'
      | Raised e => Raised e
      | Diverged => Diverged
      | Done (VStr nm) => all_names st self (S idx) more (names ++ [nm])%list log
      | Done v =>
          do log' <- _warns st self
            ("Element " ++ format_Z (Z.of_nat idx) ++ " of " ++ dq ++ "__all__"
             ++ dq ++ " has type " ++ dq ++ type_name v ++ dq ++ ", expected "
             ++ dq ++ "str" ++ dq) log;
          all_names st self (S idx) more names log'
      end
  end.

(** [Module.all]: the value returned and the diagnostics emitted. *)
Definition Module_all (st : ApiObjectsRoot) (self : oid)
  : outcome (option (list string) * list string) :=
  do o <- get_obj st self;
  match get_member st o "__all__" with
  | None => Done (None, [])
  | Some var =>
      do vo <- get_obj st var;
      if negb (is_Data vo) then Done (None, [])
      else
        match value_ast vo with
        | Some (EList elts) | Some (ETuple elts) =>
            do r <- all_names st self 0 elts [] [];
            Done (Some (fst r), snd r)
        | _ =>
            do log <- _warns st self
              ("Cannot parse value assigned to " ++ dq ++ "__all__" ++ dq
               ++ ", must be a list or tuple.") [];
            Done (None, log)
        end
  end.

(** [str.strip] leaves nothing of a string of white space. *)
Definition is_space (c : ascii) : bool :=
  let n := Ascii.nat_of_ascii c in
  (Nat.leb 9 n && Nat.leb n 13) || (Nat.leb 28 n && Nat.leb n 32).

Fixpoint all_space (s : string) : bool :=
  match s with
  | EmptyString => true
  | String c s' => is_space c && all_space s'
  end.

(** [Module.docformat]: the value returned and the diagnostics emitted. *)
Definition Module_docformat (st : ApiObjectsRoot) (self : oid)
  : outcome (option string * list string) :=
  do o <- get_obj st self;
  match get_member st o "__all__" with
  | None => Done (None, [])
  | Some var =>
      do vo <- get_obj st var;
      if negb (is_Data vo) then Done (None, [])
      else
        match literal_eval (value_ast vo) with
        | Raised ValueError =>
            do log <- _warns st var
              ("Cannot parse value assigned to " ++ dq ++ "__docformat__" ++ dq
               ++ ": not a string") [];
            Done (None, log)
        | Raised e => Raised e
        | Diverged => Diverged
        | Done (VStr value) =>
            if all_space value then
              do log <- _warns st var
                ("Cannot parse value assigned to " ++ dq ++ "__docformat__"
                 ++ dq ++ ": empty value") [];
              Done (None, log)
            else Done (Some value, [])
        | Done _ =>
            do log <- _warns st var
              ("Cannot parse value assigned to " ++ dq ++ "__docformat__" ++ dq
               ++ ": not a string") [];
            Done (None, log)
        end
  end.

(** ** Further cached properties and methods *)

(** Truth value of [self.parent]. *)
Definition has_parent (o : ApiObject) : bool :=
  match parent o with Some _ => true | None => false end.

(** [ApiObject.root_module]. *)
Fixpoint root_module_walk (st : ApiObjectsRoot) (n : nat) (self : oid)
  : outcome oid :=
  match n with
  | 0 => Diverged
  | S n' =>
      do o <- get_obj st self;
      if is_Module o && negb (has_parent o) then Done self
      else match parent o with
           | None => Raised AssertionError
           | Some p => root_module_walk st n' p
           end
  end.

Definition root_module (st : ApiObjectsRoot) (self : oid) : outcome oid :=
  root_module_walk st (depth_bound st) self.

(** [ApiObject.get_members]: what the generator yields. *)
Definition get_members (st : ApiObjectsRoot) (o : ApiObject) (nm : string)
  : list oid :=
  if HasMembers o then List.filter (has_name st nm) (members o) else [].

Definition is_Function (o : ApiObject) : bool :=
  match kind o with KFunction => true | _ => false end.

(** [Inheritable = (Indirection, Data, Function)], used with
    [isinstance]. *)
Definition Inheritable (o : ApiObject) : bool :=
  is_Indirection o || is_Data o || is_Function o.

(** The members named [nm] of the classes of [l], one per class that has
    one: the loop of [doc_sources]. *)
Fixpoint base_members (st : ApiObjectsRoot) (l : list (oid + string))
    (nm : string) : list oid :=
  match l with
  | [] => []
  | inl b :: more =>
      match objs st !! b with
      | Some bo =>
          match get_member st bo nm with
          | Some m => m :: base_members st more nm
          | None => base_members st more nm
          end
      | None => base_members st more nm
      end
  | inr _ :: more => base_members st more nm
  end.

(** [ApiObject.doc_sources]. *)
Definition doc_sources (fuel : nat) (st : ApiObjectsRoot) (self : oid)
  : outcome (list oid) :=
  do o <- get_obj st self;
  if Inheritable o then
    match parent o with
    | None => Done [self]
    | Some p =>
        do po <- get_obj st p;
        if negb (is_Class po) then Done [self]
        else
          do bs <- all_base_classes fuel st p false;
          Done (self :: base_members st bs (name o))
    end
  else Done [self].

(** [Class._exceptions]. *)
Definition _exceptions : list string :=
  [ "ArithmeticError"; "AssertionError"; "AttributeError";
    "BaseException"; "BlockingIOError"; "BrokenPipeError";
    "BufferError"; "BytesWarning"; "ChildProcessError";
    "ConnectionAbortedError"; "ConnectionError";
    "ConnectionRefusedError"; "ConnectionResetError";
    "DeprecationWarning"; "EOFError";
    "EnvironmentError"; "Exception"; "FileExistsError";
    "FileNotFoundError"; "FloatingPointError"; "FutureWarning";
    "GeneratorExit"; "IOError"; "ImportError"; "ImportWarning";
    "IndentationError"; "IndexError"; "InterruptedError";
    "IsADirectoryError"; "KeyError"; "KeyboardInterrupt"; "LookupError";
    "MemoryError"; "ModuleNotFoundError"; "NameError";
    "NotADirectoryError"; "NotImplementedError";
    "OSError"; "OverflowError"; "PendingDeprecationWarning"; "PermissionError";
    "ProcessLookupError"; "RecursionError"; "ReferenceError";
    "ResourceWarning"; "RuntimeError"; "RuntimeWarning"; "StopAsyncIteration";
    "StopIteration"; "SyntaxError"; "SyntaxWarning"; "SystemError";
    "SystemExit"; "TabError"; "TimeoutError"; "TypeError";
    "UnboundLocalError"; "UnicodeDecodeError"; "UnicodeEncodeError";
    "UnicodeError"; "UnicodeTranslateError"; "UnicodeWarning"; "UserWarning";
    "ValueError"; "Warning"; "ZeroDivisionError" ].

(** [base in self._exceptions]: an object is equal to no string. *)
Definition in_exceptions (b : oid + string) : bool :=
  match b with
  | inl _ => false
  | inr s => existsb (String.eqb s) _exceptions
  end.

(** [Class.is_exception]: the loop over the generator [all_bases(True)],
    left at the first item that is in [_exceptions]; the class itself,
    yielded first, is not. *)
Fixpoint is_exception (fuel : nat) (st : ApiObjectsRoot) (self : oid)
    {struct fuel} : outcome bool :=
  match fuel with
  | 0 => Diverged
  | S f =>
      do bs <- resolved_bases f st self;
      (fix scan (bs : list (oid + string)) : outcome bool :=
         match bs with
         | [] => Done false
         | b :: more =>
             match b with
             | inl bi =>
                 do bo <- get_obj st bi;
                 if is_Class bo then
                   do r <- is_exception f st bi;
                   if r : bool then Done true else scan more
                 else scan more
             | inr _ => if in_exceptions b then Done true else scan more
             end
         end) bs
  end.

(** [Module.is_package]. *)
Definition is_package (st : ApiObjectsRoot) (o : ApiObject) : bool :=
  existsb
    (fun m => match objs st !! m with
              | Some mo => is_Module mo
              | None => false
              end)
    (members o).

(** ** Outcomes that more nested calls cannot change

    [stable r r']: if [r] is a return or a raise, [r'] is the same. *)
Definition stable {A} (r r' : outcome A) : Prop := r <> Diverged -> r' = r.

Definition le_expand
  (e1 e2 : oid -> string -> bool -> list oid -> outcome string) : Prop :=
  forall self nm follow chain,
    stable (e1 self nm follow chain) (e2 self nm follow chain).

Definition le_find (f1 f2 : oid -> string -> outcome (option oid)) : Prop :=
  forall self nm, stable (f1 self nm) (f2 self nm).

(** ** Well-formed trees *)

(** Walking the parents of [self] reaches, within [n] links, an object
    without a parent, and that object is a module: every object below it,
    non-containers included, has a parent. *)
Fixpoint reaches_root (st : ApiObjectsRoot) (n : nat) (self : oid) : bool :=
  match n with
  | 0 => false
  | S n' =>
      match objs st !! self with
      | None => false
      | Some o =>
          match parent o with
          | None => is_Module o
          | Some p => reaches_root st n' p
          end
      end
  end.

Definition valid (st : ApiObjectsRoot) (i : oid) : bool :=
  Nat.ltb i (length (objs st)).

(** Every object has a well-formed chain of parents, and the registry
    refers to objects of the tree. *)
Definition wf_store (st : ApiObjectsRoot) : bool :=
  forallb (reaches_root st (depth_bound st)) (seq 0 (length (objs st)))
  && forallb (fun kv => valid st (snd kv)) (map_to_list (all_objects st)).

(** The bases of every class can be enumerated to their end within
    [n] nested calls: no class is among its own bases. *)
Definition bases_terminate (n : nat) (st : ApiObjectsRoot) : bool :=
  forallb
    (fun c =>
       match objs st !! c with
       | Some co => if is_Class co then is_done (all_bases n st c true) else true
       | None => true
       end)
    (seq 0 (length (objs st))).

(** ** Scopes *)

(** The member that the walk of [_local_to_full_name] finds for [nm]:
    the first member of that name in the nearest container, or in the
    scopes enclosing it as long as these are classes. *)
Fixpoint local_member (st : ApiObjectsRoot) (n : nat) (self : oid)
    (nm : string) : option oid :=
  match n with
  | 0 => None
  | S n' =>
      match objs st !! self with
      | None => None
      | Some o =>
          if negb (HasMembers o) then
            match parent o with
            | None => None
            | Some p => local_member st n' p nm
            end
          else
            match get_member st o nm with
            | Some m => Some m
            | None =>
                if is_Class o then
                  match parent o with
                  | None => None
                  | Some p => local_member st n' p nm
                  end
                else None
            end
      end
  end.

(** The nearest container of [self]: itself if it is a module or a
    class, else the nearest one among its ancestors. *)
Fixpoint nearest_container (st : ApiObjectsRoot) (n : nat) (self : oid)
  : option oid :=
  match n with
  | 0 => None
  | S n' =>
      match objs st !! self with
      | None => None
      | Some o =>
          if HasMembers o then Some self
          else match parent o with
               | None => None
               | Some p => nearest_container st n' p
               end
      end
  end.

(** An object that resolution follows: an alias or an indirection. *)
Definition is_link (mo : ApiObject) : bool :=
  is_Data mo && is_alias mo || is_Indirection mo.

(** No object of the tree has the name [nm]. *)
Definition never_defines (st : ApiObjectsRoot) (nm : string) : Prop :=
  forall o, In o (objs st) -> name o <> nm.

(** No key of the registry starts with [p]. *)
Definition no_key_prefixed (st : ApiObjectsRoot) (p : string) : Prop :=
  forall k, is_Some (all_objects st !! k) -> String.prefix p k = false.

(** [alias_chain st k c x o]: looked up from the scope [c], the name [x]
    is an alias or an indirection; following it and then [k] more, each
    target a single name looked up in the scope where the alias before it
    is declared, leads to the object [o], which is neither.  When the last
    of them is resolved, [k] indirections have been followed. *)
Inductive alias_chain (st : ApiObjectsRoot) : nat -> oid -> string -> oid -> Prop :=
| chain_last c x m mo y c' o oo :
    local_member st (depth_bound st) c x = Some m ->
    objs st !! m = Some mo ->
    is_link mo = true ->
    indirection_target mo = Done y ->
    dot_free y = true ->
    parent mo = Some c' ->
    local_member st (depth_bound st) c' y = Some o ->
    objs st !! o = Some oo ->
    is_link oo = false ->
    alias_chain st 0 c x o
| chain_next k c x m mo y c' o :
    local_member st (depth_bound st) c x = Some m ->
    objs st !! m = Some mo ->
    is_link mo = true ->
    indirection_target mo = Done y ->
    dot_free y = true ->
    parent mo = Some c' ->
    alias_chain st k c' y o ->
    alias_chain st (S k) c x o.

(** The test of [_resolve_indirection] that the indirection is not the
    one followed last. *)
Definition follows (ch : list oid) (ind : oid) : bool :=
  truthy ch && negb (Nat.eqb (List.last ch ind) ind) || negb (truthy ch).

(** The indirections of a chain are objects of the tree. *)
Definition chain_ok (st : ApiObjectsRoot) (ch : list oid) : Prop :=
  Forall (fun i => valid st i = true) ch.

(** [ctx] has a parent in its own module. *)
Definition parent_in_module (st : ApiObjectsRoot) (ctx : oid) (co : ApiObject)
    (p : oid) : Prop :=
  parent co = Some p
  /\ exists cm, module st ctx = Done cm /\ module st p = Done cm.

Definition no_parent_in_module (st : ApiObjectsRoot) (ctx : oid)
    (co : ApiObject) : Prop :=
  parent co = None
  \/ exists p cm pm, parent co = Some p /\ module st ctx = Done cm
                     /\ module st p = Done pm /\ cm <> pm.

(** [descends st ctx names E]: from the container [ctx] the names lead,
    member by member, to [E].  Each name has no dot and names a member of
    the object before it; the first member of that name is no alias and
    no indirection, has that object as parent and is registered under its
    full name. *)
Inductive descends (st : ApiObjectsRoot) : oid -> list string -> oid -> Prop :=
| desc_here ctx : descends st ctx [] ctx
| desc_member ctx co n m mo fm rest E :
    objs st !! ctx = Some co ->
    get_member st co n = Some m ->
    objs st !! m = Some mo ->
    is_link mo = false ->
    dot_free n = true ->
    parent mo = Some ctx ->
    full_name st m = Done fm ->
    all_objects st !! fm = Some m ->
    descends st m rest E ->
    descends st ctx (n :: rest) E.

(** The walk of [_local_to_full_name] from [self] ends in a module, and
    no scope on the way has a member named [nm]. *)
Fixpoint scope_lacks (st : ApiObjectsRoot) (n : nat) (self : oid)
    (nm : string) : bool :=
  match n with
  | 0 => false
  | S n' =>
      match objs st !! self with
      | None => false
      | Some o =>
          if negb (HasMembers o) then
            match parent o with
            | None => false
            | Some p => scope_lacks st n' p nm
            end
          else
            match get_member st o nm with
            | Some _ => false
            | None =>
                if is_Class o then
                  match parent o with
                  | None => false
                  | Some p => scope_lacks st n' p nm
                  end
                else true
            end
      end
  end.

(** ** Example trees *)

Definition obj (nm : string) (k : Kind) (p : option oid) (ms : list oid)
  : ApiObject :=
  mkApiObject nm k p ms None.

(** The registry a loader builds: every object under its full name, in
    the order of the arena. *)
Definition load (l : list ApiObject) : ApiObjectsRoot :=
  fold_left
    (fun st i =>
       match full_name st i with
       | Done k => register k i st
       | _ => st
       end)
    (seq 0 (length l)) (mkRoot l ∅).

(** [m.py]: [__docformat__ = 'epytext'] and nothing else. *)
Definition st_docformat : ApiObjectsRoot :=
  Eval vm_compute in load [ obj "m" KModule None [1];
         obj "__docformat__"
           (KData (Some ("'epytext'", EConstant (CStr "epytext")))) (Some 0) [] ].

(** [m.py]: [__all__ = names()]. *)
Definition st_all_call : ApiObjectsRoot :=
  Eval vm_compute in load [ obj "m" KModule None [1];
         obj "__all__"
           (KData (Some ("names()", ECall (EName "names") []))) (Some 0) [] ].

(** [m.py]: [class A] defined twice, registered in that order. *)
Definition objs_dup : list ApiObject :=
  [ obj "m" KModule None [1; 2];
    obj "A" (KClass []) (Some 0) [];
    obj "A" (KClass []) (Some 0) [] ].

Definition st_dup : ApiObjectsRoot :=
  mkRoot objs_dup
    (dsd_setitem "m.A" 2 (dsd_setitem "m.A" 1 (dsd_setitem "m" 0 ∅))).

(** [m.py]: [class A: m], [class B: m], [class C(A, B)]. *)
Definition st_diamond : ApiObjectsRoot :=
  Eval vm_compute in load [ obj "m" KModule None [1; 3; 5];
         obj "A" (KClass []) (Some 0) [2];
         obj "m" KFunction (Some 1) [];
         obj "B" (KClass []) (Some 0) [4];
         obj "m" KFunction (Some 3) [];
         obj "C" (KClass ["A"; "B"]) (Some 0) [] ].

(** [m.py], empty. *)
Definition st_empty : ApiObjectsRoot := Eval vm_compute in load [ obj "m" KModule None [] ].

(** [m.py]: [from os import path]. *)
Definition st_import : ApiObjectsRoot :=
  Eval vm_compute in load [ obj "m" KModule None [1];
         obj "path" (KIndirection "os.path") (Some 0) [] ].

(** [m.py]: [class A: pass] and [def f(): pass]. *)
Definition st_plain : ApiObjectsRoot :=
  Eval vm_compute in load [ obj "m" KModule None [1; 2];
         obj "A" (KClass []) (Some 0) [];
         obj "f" KFunction (Some 0) [] ].

(** An alias [nm = value] in the module with index 0. *)
Definition alias_of (nm value : string) : ApiObject :=
  obj nm (KData (Some (value, EName value))) (Some 0) [].

(** [m.py]: [a0 = a1], ..., [a5 = a6], [def a6(): pass]. *)
Definition st_chain6 : ApiObjectsRoot :=
  Eval vm_compute in load [ obj "m" KModule None [1; 2; 3; 4; 5; 6; 7];
         alias_of "a0" "a1"; alias_of "a1" "a2"; alias_of "a2" "a3";
         alias_of "a3" "a4"; alias_of "a4" "a5"; alias_of "a5" "a6";
         obj "a6" KFunction (Some 0) [] ].

(** [m.py]: [a0 = a1], ..., [a6 = a7], [def a7(): pass]. *)
Definition st_chain7 : ApiObjectsRoot :=
  Eval vm_compute in load [ obj "m" KModule None [1; 2; 3; 4; 5; 6; 7; 8];
         alias_of "a0" "a1"; alias_of "a1" "a2"; alias_of "a2" "a3";
         alias_of "a3" "a4"; alias_of "a4" "a5"; alias_of "a5" "a6";
         alias_of "a6" "a7";
         obj "a7" KFunction (Some 0) [] ].

(** [m.py]: [class A(B): pass] and [class B(A): pass]. *)
Definition st_cyclic : ApiObjectsRoot :=
  Eval vm_compute in load [ obj "m" KModule None [1; 2];
         obj "A" (KClass ["B"]) (Some 0) [];
         obj "B" (KClass ["A"]) (Some 0) [] ].

(** [m.py]: [import os]. *)
Definition st_import_os : ApiObjectsRoot :=
  Eval vm_compute in load [ obj "m" KModule None [1];
         obj "os" (KIndirection "os") (Some 0) [] ].

(** [m.py]: [def X(): pass] and [class C: X = X]. *)
Definition st_self_class : ApiObjectsRoot :=
  Eval vm_compute in load [ obj "m" KModule None [1; 2];
         obj "X" KFunction (Some 0) [];
         obj "C" (KClass []) (Some 0) [3];
         obj "X" (KData (Some ("X", EName "X"))) (Some 2) [] ].

(** [m.py]: [class A(B)] with a method [x], and [class B(A)]. *)
Definition st_cyclic_member : ApiObjectsRoot :=
  Eval vm_compute in load [ obj "m" KModule None [1; 3];
         obj "A" (KClass ["B"]) (Some 0) [2];
         obj "x" KFunction (Some 1) [];
         obj "B" (KClass ["A"]) (Some 0) [] ].

(** [m.py]: [class E(ValueError)] and [class F(E)]. *)
Definition st_errors : ApiObjectsRoot :=
  Eval vm_compute in load [ obj "m" KModule None [1; 2];
         obj "E" (KClass ["ValueError"]) (Some 0) [];
         obj "F" (KClass ["E"]) (Some 0) [] ].

(** [m.py]: [class A] with a method [run], [class B(A)] with a method
    [run]. *)
Definition st_override : ApiObjectsRoot :=
  Eval vm_compute in load [ obj "m" KModule None [1; 3];
         obj "A" (KClass []) (Some 0) [2];
         obj "run" KFunction (Some 1) [];
         obj "B" (KClass ["A"]) (Some 0) [4];
         obj "run" KFunction (Some 3) [] ].

(** [m.py]: [import os] and [P = os]. *)
Definition st_alias_import : ApiObjectsRoot :=
  Eval vm_compute in load [ obj "m" KModule None [1; 2];
         obj "os" (KIndirection "os") (Some 0) [];
         obj "P" (KData (Some ("os", EName "os"))) (Some 0) [] ].

(** [m.py]: [def helper(): pass] and [class C] with a method [run]. *)
Definition st_scopes : ApiObjectsRoot :=
  Eval vm_compute in load [ obj "m" KModule None [1; 2];
         obj "helper" KFunction (Some 0) [];
         obj "C" (KClass []) (Some 0) [3];
         obj "run" KFunction (Some 2) [] ].

(** [m.py]: [__all__ = ['a', 'b']]. *)
Definition st_all_list : ApiObjectsRoot :=
  Eval vm_compute in load [ obj "m" KModule None [1];
         obj "__all__"
           (KData (Some ("['a', 'b']",
                         EList [EConstant (CStr "a"); EConstant (CStr "b")])))
           (Some 0) [] ].

(** * Properties *)

(** ** The outcome monad *)

Lemma bind_Done {A B} (c : outcome A) (k : A -> outcome B) b :
  bind c k = Done b -> exists a, c = Done a /\ k a = Done b.
Proof. destruct c; simpl; intros H; try discriminate. eauto. Qed.

Lemma bind_not_Diverged {A B} (c : outcome A) (k : A -> outcome B) :
  bind c k <> Diverged ->
  c <> Diverged /\ forall a, c = Done a -> k a <> Diverged.
Proof.
  destruct c; simpl; intros H; (split; [congruence|]);
    intros a' Ha; try discriminate.
  injection Ha as <-. exact H.
Qed.

(** ** Dotted names *)

Lemma string_app_cons x (a b : string) : String x a ++ b = String x (a ++ b).
Proof. reflexivity. Qed.

Lemma string_app_nil_l (b : string) : EmptyString ++ b = b.
Proof. reflexivity. Qed.

Lemma string_app_assoc (a b c : string) : (a ++ b) ++ c = a ++ (b ++ c).
Proof.
  induction a as [|x a IH]; [reflexivity|].
  rewrite !string_app_cons. now rewrite IH.
Qed.

Lemma string_app_nil_r (a : string) : a ++ EmptyString = a.
Proof.
  induction a as [|x a IH]; [reflexivity|].
  rewrite string_app_cons. now rewrite IH.
Qed.

Lemma string_app_empty (a b : string) :
  a ++ b = EmptyString -> a = EmptyString /\ b = EmptyString.
Proof.
  destruct a; [rewrite string_app_nil_l; auto|].
  rewrite string_app_cons. discriminate.
Qed.

Lemma split_dot_not_nil s : split_dot s <> [].
Proof.
  destruct s as [|c s]; simpl; [discriminate|].
  destruct (Ascii.eqb c "."); [discriminate|].
  destruct (split_dot s); discriminate.
Qed.

Lemma concat_cons_cons sep (x y : string) l :
  String.concat sep (x :: y :: l) = x ++ sep ++ String.concat sep (y :: l).
Proof. reflexivity. Qed.

Lemma concat_split_dot s : String.concat "." (split_dot s) = s.
Proof.
  induction s as [|c s IH]; [reflexivity|].
  simpl split_dot. destruct (Ascii.eqb_spec c ".") as [->|Hc].
  - pose proof (split_dot_not_nil s) as Hn.
    destruct (split_dot s) as [|p ps]; [contradiction|].
    rewrite concat_cons_cons, IH. reflexivity.
  - destruct (split_dot s) as [|p ps] eqn:E.
    + exfalso. eapply split_dot_not_nil; eauto.
    + destruct ps as [|q qs].
      * simpl in IH. simpl. now subst.
      * rewrite <- IH. reflexivity.
Qed.

Lemma concat_app sep (l1 l2 : list string) :
  l1 <> [] -> l2 <> [] ->
  String.concat sep (l1 ++ l2)%list
  = String.concat sep l1 ++ sep ++ String.concat sep l2.
Proof.
  intros H1 H2. induction l1 as [|x l1 IH]; [contradiction|].
  destruct l1 as [|y l1].
  - simpl. destruct l2; [contradiction|reflexivity].
  - change ((x :: y :: l1) ++ l2)%list with (x :: (y :: l1) ++ l2)%list.
    change ((y :: l1) ++ l2)%list with (y :: (l1 ++ l2))%list.
    rewrite concat_cons_cons.
    change (y :: (l1 ++ l2))%list with ((y :: l1) ++ l2)%list.
    rewrite IH by discriminate.
    rewrite concat_cons_cons.
    rewrite !string_app_assoc. reflexivity.
Qed.

Lemma DottedName_not_nil p ps : DottedName (p :: ps) <> [].
Proof.
  unfold DottedName. simpl. intros H.
  apply app_eq_nil in H. destruct H as [H _].
  now apply split_dot_not_nil in H.
Qed.

(** Splitting the pieces and joining them again joins the pieces. *)
Lemma str_DottedName_pieces pieces :
  str_DottedName (DottedName pieces) = String.concat "." pieces.
Proof.
  unfold str_DottedName.
  induction pieces as [|p ps IH]; [reflexivity|].
  destruct ps as [|q qs].
  - unfold DottedName. simpl. rewrite app_nil_r. apply concat_split_dot.
  - change (DottedName (p :: q :: qs))
      with (split_dot p ++ DottedName (q :: qs))%list.
    rewrite concat_app.
    + rewrite IH, concat_split_dot. reflexivity.
    + apply split_dot_not_nil.
    + apply DottedName_not_nil.
Qed.

Lemma str_DottedName_single s : str_DottedName (DottedName [s]) = s.
Proof. apply str_DottedName_pieces. Qed.

Lemma split_dot_dot_free s : dot_free s = true -> split_dot s = [s].
Proof.
  induction s as [|c s IH]; [reflexivity|].
  simpl. destruct (Ascii.eqb c "."); simpl; [discriminate|].
  intros H. now rewrite IH.
Qed.

Lemma DottedName_dot_free s : dot_free s = true -> DottedName [s] = [s].
Proof.
  intros H. unfold DottedName. simpl. rewrite app_nil_r.
  now apply split_dot_dot_free.
Qed.

(** ** Members *)

Lemma get_member_Some st o nm m :
  get_member st o nm = Some m ->
  HasMembers o = true /\ In m (members o) /\
  exists mo, objs st !! m = Some mo /\ name mo = nm.
Proof.
  unfold get_member. destruct (HasMembers o); [|discriminate].
  intros H. apply find_some in H. destruct H as [Hin Hn].
  split; [reflexivity|]. split; [exact Hin|].
  unfold has_name in Hn. destruct (objs st !! m) as [mo|]; [|discriminate].
  exists mo. split; [reflexivity|]. now apply String.eqb_eq.
Qed.

Lemma get_member_None st o nm m mo :
  get_member st o nm = None -> HasMembers o = true ->
  In m (members o) -> objs st !! m = Some mo -> name mo <> nm.
Proof.
  unfold get_member. intros H Hc Hin Hm Hn. rewrite Hc in H.
  eapply find_none in H; [|exact Hin].
  unfold has_name in H. rewrite Hm in H.
  apply String.eqb_neq in H. contradiction.
Qed.

(** ** Module.docformat *)



(** ** Module.all *)

Lemma literal_eval_node_cases :
  forall e, literal_eval_node e = Raised ValueError
            \/ exists v, literal_eval_node e = Done v.
Proof.
  fix IH 1. intros e.
  assert (Hall : forall l,
    (fix convert_all (l : list expr) : outcome (list pyval) :=
       match l with
       | [] => Done []
       | x :: xs =>
           do v <- literal_eval_node x;
           do vs <- convert_all xs;
           Done (v :: vs)
       end) l = Raised ValueError
    \/ exists vs,
    (fix convert_all (l : list expr) : outcome (list pyval) :=
       match l with
       | [] => Done []
       | x :: xs =>
           do v <- literal_eval_node x;
           do vs <- convert_all xs;
           Done (v :: vs)
       end) l = Done vs).
  { induction l as [|x xs IHl]; [right; eauto|].
    destruct (IH x) as [Hx|[v Hx]]; rewrite Hx; simpl; [now left|].
    destruct IHl as [Hl|[vs Hl]]; rewrite Hl; simpl; [now left|right; eauto]. }
  destruct e as [[s|z|b|]| | |elts|elts| ]; simpl;
    try (right; eexists; reflexivity); try (now left).
  - destruct (Hall elts) as [H|[vs H]]; rewrite H; simpl;
      [now left|right; eauto].
  - destruct (Hall elts) as [H|[vs H]]; rewrite H; simpl;
      [now left|right; eauto].
Qed.

Lemma _warns_raises st self msg log :
  is_done (full_name st self) = true ->
  _warns st self msg log = Raised AttributeError.
Proof.
  unfold _warns. destruct (full_name st self) as [fn| |] eqn:E;
    try discriminate.
  intros _. simpl.
  assert (exists o, get_obj st self = Done o) as [o Ho].
  { unfold full_name, dotted_name, path in E.
    destruct (depth_bound st) as [|n]; simpl in E; [discriminate|].
    destruct (get_obj st self) as [o| |]; try discriminate. eauto. }
  rewrite Ho. reflexivity.
Qed.

Lemma all_names_raises st self elts :
  is_done (full_name st self) = true ->
  forall idx names log,
  (exists item, In item elts /\ forall s, literal_eval_node item <> Done (VStr s)) ->
  all_names st self idx elts names log = Raised AttributeError.
Proof.
  intros Hfn. induction elts as [|x xs IH]; intros idx names log [item [Hin Hbad]].
  - destruct Hin.
  - simpl. destruct (literal_eval_node_cases x) as [Hx|[v Hx]]; rewrite Hx.
    + now rewrite _warns_raises.
    + destruct v; try now rewrite _warns_raises.
      apply IH. exists item. split; [|exact Hbad].
      destruct Hin as [<-|Hin]; [|exact Hin].
      exfalso. eapply Hbad; eauto.
Qed.

(** C8: what [Module.all] does with a malformed [__all__].  The diagnostic
    is formatted from [self.location.linenumber], and a [Location] has no
    such attribute: where the value is no list or tuple display, and where
    an element of the display is no string literal, [AttributeError] is
    raised instead of a diagnostic being emitted and a value returned. *)
Theorem all_malformed_raises st self o var vo :
  objs st !! self = Some o ->
  get_member st o "__all__" = Some var ->
  objs st !! var = Some vo ->
  is_Data vo = true ->
  is_done (full_name st self) = true ->
  ((forall elts, value_ast vo <> Some (EList elts)) ->
   (forall elts, value_ast vo <> Some (ETuple elts)) ->
   Module_all st self = Raised AttributeError)
  /\
  (forall elts,
     value_ast vo = Some (EList elts) \/ value_ast vo = Some (ETuple elts) ->
     (exists item, In item elts /\
                   forall s, literal_eval_node item <> Done (VStr s)) ->
     Module_all st self = Raised AttributeError).
Proof.
  intros Ho Hg Hvar Hd Hfn. unfold Module_all, get_obj.
  rewrite Ho. simpl. rewrite Hg, Hvar. simpl. rewrite Hd. simpl. split.
  - intros HL HT. destruct (value_ast vo) as [[]|];
      try (now rewrite _warns_raises).
    + exfalso. eapply HL; eauto.
    + exfalso. eapply HT; eauto.
  - intros elts [Hv|Hv] Hbad; rewrite Hv;
      now rewrite all_names_raises.
Qed.

Lemma all_malformed_raises_witness :
  Module_all st_all_call 0 = Raised AttributeError.
Proof.
  refine (proj1 (all_malformed_raises st_all_call 0 (obj "m" KModule None [1]) 1
            (obj "__all__" (KData (Some ("names()", ECall (EName "names") [])))
               (Some 0) []) _ _ _ _ _) _ _);
    try reflexivity; intros elts; discriminate.
Defined.

(** ** The registry *)

Lemma dsd_setitem_taken k v (d : gmap string oid) :
  is_Some (d !! k) -> dsd_setitem k v d = d.
Proof. intros [x Hx]. unfold dsd_setitem. now rewrite Hx. Qed.

Lemma dsd_setitem_lookup k v (d : gmap string oid) :
  dsd_setitem k v d !! k = Some (default v (d !! k)).
Proof.
  unfold dsd_setitem. destruct (d !! k) as [x|] eqn:E; simpl.
  - exact E.
  - apply lookup_insert_eq.
Qed.



(** ** Unfolding one level of calls *)

Lemma expand_name_S f st self nm follow chain :
  expand_name (S f) st self nm follow chain
  = expand_name_body st (expand_name f st) (find f st) self nm follow chain.
Proof. reflexivity. Qed.

Lemma find_S f st self nm :
  find (S f) st self nm = find_body st (expand_name f st) (find f st) self nm.
Proof. reflexivity. Qed.

(** ** Monotonicity in the depth of nested calls *)

Lemma stable_refl {A} (r : outcome A) : stable r r.
Proof. intros _. reflexivity. Qed.

Lemma stable_Diverged {A} (r : outcome A) : stable Diverged r.
Proof. intros H. contradiction. Qed.

Lemma stable_bind {A B} (c c' : outcome A) (k k' : A -> outcome B) :
  stable c c' ->
  (forall a, c = Done a -> stable (k a) (k' a)) ->
  stable (bind c k) (bind c' k').
Proof.
  intros Hc Hk H. destruct c as [a|e|]; simpl in *.
  - rewrite Hc by discriminate. simpl. now apply Hk.
  - rewrite Hc by discriminate. reflexivity.
  - contradiction.
Qed.

Ltac stable_step :=
  match goal with
  | |- stable ?x ?x => apply stable_refl
  | |- stable Diverged _ => apply stable_Diverged
  | |- stable (bind _ _) (bind _ _) => apply stable_bind; [|intros ? ?]
  | |- stable (match ?d with _ => _ end) (match ?d with _ => _ end) =>
      destruct d eqn:?
  | |- stable (or_else ?r _) (or_else ?r _) =>
      unfold or_else; destruct r
  end.

Section Monotone.

Variable st : ApiObjectsRoot.
Variables e1 e2 : oid -> string -> bool -> list oid -> outcome string.
Variables f1 f2 : oid -> string -> outcome (option oid).
Hypothesis He : le_expand e1 e2.
Hypothesis Hf : le_find f1 f2.

Lemma _resolve_indirection_mono ind chain :
  stable (_resolve_indirection st e1 ind chain)
         (_resolve_indirection st e2 ind chain).
Proof.
  unfold _resolve_indirection. repeat stable_step; try apply He.
Qed.

Lemma member_full_name_mono m mo follow chain :
  stable (member_full_name st e1 m mo follow chain)
         (member_full_name st e2 m mo follow chain).
Proof.
  unfold member_full_name.
  repeat stable_step; try apply _resolve_indirection_mono.
Qed.

Lemma _local_to_full_name_mono n : forall self nm follow chain,
  stable (_local_to_full_name st e1 n self nm follow chain)
         (_local_to_full_name st e2 n self nm follow chain).
Proof.
  induction n as [|n IH]; intros self nm follow chain; simpl.
  - apply stable_Diverged.
  - repeat stable_step; try apply IH; try apply member_full_name_mono.
Qed.

Lemma expand_loop_mono parts : forall ctx i follow chain,
  stable (expand_loop st e1 f1 ctx i parts follow chain)
         (expand_loop st e2 f2 ctx i parts follow chain).
Proof.
  induction parts as [|part rest IH]; intros ctx i follow chain; simpl.
  - apply stable_refl.
  - repeat stable_step; try apply _local_to_full_name_mono; try apply Hf;
      try apply IH.
Qed.

Lemma expand_name_body_mono self nm follow chain :
  stable (expand_name_body st e1 f1 self nm follow chain)
         (expand_name_body st e2 f2 self nm follow chain).
Proof. apply expand_loop_mono. Qed.

Lemma resolve_bases_mono p bases :
  stable (resolve_bases st e1 p bases) (resolve_bases st e2 p bases).
Proof.
  induction bases as [|b bs IH]; simpl.
  - apply stable_refl.
  - repeat stable_step; try apply He; try apply IH.
Qed.

Lemma resolved_bases_body_mono self :
  stable (resolved_bases_body st e1 self) (resolved_bases_body st e2 self).
Proof.
  unfold resolved_bases_body. repeat stable_step; apply resolve_bases_mono.
Qed.

Lemma find_in_bases_mono bs nm :
  stable (find_in_bases st f1 bs nm) (find_in_bases st f2 bs nm).
Proof.
  induction bs as [|[b|s] bs IH]; simpl.
  - apply stable_refl.
  - repeat stable_step; try apply Hf; try apply IH.
  - apply IH.
Qed.

Lemma find_body_mono self nm :
  stable (find_body st e1 f1 self nm) (find_body st e2 f2 self nm).
Proof.
  unfold find_body. repeat stable_step;
    try apply resolved_bases_body_mono; try apply find_in_bases_mono.
Qed.

End Monotone.

Lemma expand_find_mono st f : forall f', f <= f' ->
  le_expand (expand_name f st) (expand_name f' st)
  /\ le_find (find f st) (find f' st).
Proof.
  induction f as [|f IH]; intros f' Hle.
  - split; [intros ? ? ? ?|intros ? ?]; apply stable_Diverged.
  - destruct f' as [|f']; [lia|]. destruct (IH f') as [He Hf]; [lia|].
    split.
    + intros self nm follow chain. rewrite !expand_name_S.
      now apply expand_name_body_mono.
    + intros self nm. rewrite !find_S. now apply find_body_mono.
Qed.

Lemma expand_name_mono st f f' self nm follow chain r :
  f <= f' -> expand_name f st self nm follow chain = Done r ->
  expand_name f' st self nm follow chain = Done r.
Proof.
  intros Hle H. destruct (expand_find_mono st f f' Hle) as [He _].
  rewrite <- H. apply He. rewrite H. discriminate.
Qed.

Lemma find_mono st f f' self nm r :
  f <= f' -> find f st self nm = Done r -> find f' st self nm = Done r.
Proof.
  intros Hle H. destruct (expand_find_mono st f f' Hle) as [_ Hf].
  rewrite <- H. apply Hf. rewrite H. discriminate.
Qed.

Lemma resolved_bases_mono st f f' self r :
  f <= f' -> resolved_bases f st self = Done r ->
  resolved_bases f' st self = Done r.
Proof.
  intros Hle H. destruct (expand_find_mono st f f' Hle) as [He _].
  unfold resolved_bases in *. rewrite <- H.
  apply resolved_bases_body_mono; [exact He|]. rewrite H. discriminate.
Qed.

(** ** Class.find *)

Lemma first_member_app st l1 l2 nm :
  first_member st (l1 ++ l2)%list nm
  = match first_member st l1 nm with
    | Some m => Some m
    | None => first_member st l2 nm
    end.
Proof.
  induction l1 as [|[b|s] l1 IH]; simpl; [reflexivity| |exact IH].
  destruct (objs st !! b) as [bo|]; [|exact IH].
  destruct (is_Class bo); [|exact IH].
  destruct (get_member st bo nm); [reflexivity|exact IH].
Qed.

(** [find] returns what its loop finds in the items that [all_bases]
    yields, whenever these can be enumerated to their end. *)
Lemma find_all_bases n : forall st c co l nm,
  objs st !! c = Some co -> is_Class co = true ->
  all_bases n st c true = Done l ->
  find n st c nm = Done (first_member st l nm).
Proof.
  induction n as [|f IH]; intros st c co l nm Hc Hcls Hall; [discriminate|].
  simpl in Hall. apply bind_Done in Hall. destruct Hall as (bs & Hbs & Hall).
  apply bind_Done in Hall. destruct Hall as (below & Hbelow & Hall).
  injection Hall as <-.
  rewrite find_S. unfold find_body, get_obj. rewrite Hc. simpl.
  rewrite Hc, Hcls.
  destruct (get_member st co nm) as [m|]; [reflexivity|].
  unfold resolved_bases in Hbs. rewrite Hbs. simpl.
  clear Hbs Hc Hcls. revert below Hbelow.
  induction bs as [|[b|s] bs IHbs]; intros below Hbelow.
  - injection Hbelow as <-. reflexivity.
  - apply bind_Done in Hbelow. destruct Hbelow as (ys & Hys & Hbelow).
    apply bind_Done in Hbelow. destruct Hbelow as (zs & Hzs & Hbelow).
    injection Hbelow as <-. rewrite first_member_app. simpl.
    apply bind_Done in Hys. destruct Hys as (bo & Hbo & Hys).
    rewrite Hbo. simpl.
    assert (Hb : objs st !! b = Some bo).
    { unfold get_obj in Hbo. destruct (objs st !! b); congruence. }
    destruct (is_Class bo) eqn:Hk.
    + rewrite (IH st b bo ys nm Hb Hk Hys). simpl.
      destruct (first_member st ys nm); [reflexivity|]. now apply IHbs.
    + injection Hys as <-. simpl. rewrite Hb, Hk. now apply IHbs.
  - apply bind_Done in Hbelow. destruct Hbelow as (ys & Hys & Hbelow).
    apply bind_Done in Hbelow. destruct Hbelow as (zs & Hzs & Hbelow).
    injection Hbelow as <-. injection Hys as <-. simpl. now apply IHbs.
Qed.

(** C6: for a class [C] whose bases resolve to the classes [A] then [B],
    with no member [nm] of its own while [A] and [B] each have one,
    [find] returns the member of [A].  It scans [C], then what [A] and
    its bases yield, then what [B] and its bases yield, and returns the
    first member of that name. *)
Theorem find_prefers_first_base fuel st C A B co ao bo nm am bm :
  objs st !! C = Some co -> is_Class co = true ->
  objs st !! A = Some ao -> is_Class ao = true ->
  objs st !! B = Some bo -> is_Class bo = true ->
  resolved_bases fuel st C = Done [inl A; inl B] ->
  get_member st co nm = None ->
  get_member st ao nm = Some am ->
  get_member st bo nm = Some bm ->
  (forall n, fuel < n -> find n st C nm = Done (Some am))
  /\ (forall n la lb, fuel <= n ->
        all_bases n st A true = Done la ->
        all_bases n st B true = Done lb ->
        all_bases (S n) st C true = Done (inl C :: la ++ lb)%list
        /\ forall nm', find (S n) st C nm'
                       = Done (first_member st (inl C :: la ++ lb)%list nm')).
Proof.
  intros HC HCc HA HAc HB HBc Hbs HmC HmA HmB.
  assert (Hfuel : exists f, fuel = S f).
  { destruct fuel as [|f]; [|eauto].
    unfold resolved_bases, resolved_bases_body, get_obj in Hbs.
    rewrite HC in Hbs. simpl in Hbs.
    destruct (kind co); try discriminate.
    destruct bases; simpl in Hbs; [discriminate|].
    destruct (parent co); discriminate. }
  destruct Hfuel as [f ->]. split.
  - intros n Hn. apply (find_mono st (S (S f))); [lia|].
    rewrite find_S. unfold find_body, get_obj. rewrite HC. cbn [bind].
    rewrite HmC. unfold resolved_bases in Hbs. rewrite Hbs. cbn [bind].
    cbn [find_in_bases]. unfold get_obj. rewrite HA. cbn [bind].
    rewrite HAc.
    rewrite find_S. unfold find_body, get_obj. rewrite HA. cbn [bind].
    rewrite HmA. reflexivity.
  - intros n la lb Hn Hla Hlb.
    assert (Hall : all_bases (S n) st C true = Done (inl C :: la ++ lb)%list).
    { cbn [all_bases].
      rewrite (resolved_bases_mono st (S f) n C _ Hn Hbs). cbn [bind].
      unfold get_obj. rewrite HA, HB. cbn [bind]. rewrite HAc, HBc, Hla, Hlb.
      cbn [bind]. now rewrite app_nil_r. }
    split; [exact Hall|]. intros nm'.
    now apply (find_all_bases (S n) st C co).
Qed.

Lemma find_prefers_first_base_witness :
  find 2 st_diamond 5 "m" = Done (Some 2).
Proof.
  refine (proj1 (find_prefers_first_base 1 st_diamond 5 1 3
            (obj "C" (KClass ["A"; "B"]) (Some 0) [])
            (obj "A" (KClass []) (Some 0) [2])
            (obj "B" (KClass []) (Some 0) [4]) "m" 2 4
            _ _ _ _ _ _ _ _ _ _) 2 _); try reflexivity.
  lia.
Defined.

(** ** Walks towards the root *)

Lemma lookup_In (st : ApiObjectsRoot) i o : objs st !! i = Some o -> In o (objs st).
Proof. intros H. apply list_elem_of_In. eapply list_elem_of_lookup_2; eauto. Qed.

Lemma valid_lookup st i : valid st i = true -> exists o, objs st !! i = Some o.
Proof.
  unfold valid. intros H. apply Nat.ltb_lt in H.
  destruct (lookup_lt_is_Some_2 (objs st) i H) as [o Ho]. eauto.
Qed.

Lemma lookup_valid st i o : objs st !! i = Some o -> valid st i = true.
Proof.
  intros H. unfold valid. apply Nat.ltb_lt. eapply lookup_lt_Some; eauto.
Qed.

Lemma wf_reaches st e :
  wf_store st = true -> valid st e = true ->
  reaches_root st (depth_bound st) e = true.
Proof.
  unfold wf_store. intros H Hv.
  apply andb_prop in H. destruct H as [H _].
  rewrite forallb_forall in H. apply H.
  apply in_seq. unfold valid in Hv. apply Nat.ltb_lt in Hv. lia.
Qed.

Lemma Module_HasMembers o : is_Module o = true -> HasMembers o = true.
Proof. unfold HasMembers. now intros ->. Qed.

Lemma Class_not_Module o : is_Class o = true -> is_Module o = false.
Proof. unfold is_Class, is_Module. destruct (kind o); congruence. Qed.

(** A name that no object has is returned as it is. *)
Lemma local_unknown st e nm follow chain :
  never_defines st nm ->
  forall n self, reaches_root st n self = true ->
  _local_to_full_name st e n self nm follow chain = Done nm.
Proof.
  intros Hno. induction n as [|n IH]; intros self Hr; [discriminate|].
  simpl in Hr. simpl. unfold get_obj.
  destruct (objs st !! self) as [o|] eqn:Ho; [|discriminate]. cbn [bind].
  assert (Hg : get_member st o nm = None).
  { destruct (get_member st o nm) as [m|] eqn:E; [|reflexivity].
    apply get_member_Some in E. destruct E as (_ & _ & mo & Hm & Hn).
    exfalso. eapply Hno; [eapply lookup_In|]; eauto. }
  rewrite Hg.
  destruct (parent o) as [p|].
  - destruct (negb (HasMembers o)); [now apply IH|].
    destruct (is_Class o); [now apply IH|reflexivity].
  - unfold HasMembers, is_Class, is_Module in *.
    destruct (kind o); try discriminate. reflexivity.
Qed.

Lemma never_defines_check st nm :
  forallb (fun o => negb (String.eqb (name o) nm)) (objs st) = true ->
  never_defines st nm.
Proof.
  intros H o Hin Hn. rewrite forallb_forall in H. specialize (H o Hin).
  apply negb_true_iff, String.eqb_neq in H. contradiction.
Qed.

Lemma no_key_prefixed_check st p :
  forallb (fun kv => negb (String.prefix p (fst kv)))
    (map_to_list (all_objects st)) = true ->
  no_key_prefixed st p.
Proof.
  intros H k [v Hv]. rewrite forallb_forall in H.
  apply elem_of_map_to_list, list_elem_of_In in Hv.
  specialize (H (k, v) Hv). now apply negb_true_iff in H.
Qed.

(** ** Names that nothing defines *)

(** C2 (amended): in a well-formed tree where no object is named [os] and
    no key of the registry starts with [os], [expand_name] returns
    [os.path.join] as it is, without the full name of the calling scope in
    front, and [resolve_name] returns [None]. *)
Theorem expand_unknown_name st E fuel follow :
  wf_store st = true -> valid st E = true ->
  never_defines st "os" -> no_key_prefixed st "os" ->
  expand_name (S fuel) st E "os.path.join" follow [] = Done "os.path.join"
  /\ resolve_name (S fuel) st E "os.path.join" follow = Done None.
Proof.
  intros Hwf Hv Hno Hkeys.
  assert (Hk : forall k, String.prefix "os" k = true ->
                         dsd_get k (all_objects st) = None).
  { intros k Hp. unfold dsd_get.
    destruct (all_objects st !! k) as [v|] eqn:E'; [|reflexivity].
    rewrite (Hkeys k) in Hp by eauto. discriminate. }
  assert (He : expand_name (S fuel) st E "os.path.join" follow []
               = Done "os.path.join").
  { rewrite expand_name_S. unfold expand_name_body.
    change (DottedName ["os.path.join"]) with ["os"; "path"; "join"].
    cbn [expand_loop].
    rewrite (local_unknown st _ "os" follow [] Hno _ _ (wf_reaches st E Hwf Hv)).
    cbn [bind].
    change (String.eqb "os" "os" && negb (Nat.eqb 0 0)) with false.
    cbn [bind]. rewrite (Hk "os") by reflexivity. reflexivity. }
  split; [exact He|].
  unfold resolve_name. rewrite He. cbn [bind].
  now rewrite (Hk "os.path.join").
Qed.

Lemma expand_unknown_name_witness :
  expand_name 1 st_empty 0 "os.path.join" true [] = Done "os.path.join"
  /\ resolve_name 1 st_empty 0 "os.path.join" true = Done None.
Proof.
  apply (expand_unknown_name st_empty 0 0 true).
  - reflexivity.
  - reflexivity.
  - apply never_defines_check. reflexivity.
  - apply no_key_prefixed_check. vm_compute. reflexivity.
Defined.

(** C2 as stated fails: in the tree of an empty module [m], where nothing
    is named [os], the name expanded from [m] is never
    [m.os.path.join]. *)
Lemma expand_unknown_name_counterexample :
  wf_store st_empty = true
  /\ never_defines st_empty "os"
  /\ no_key_prefixed st_empty "os"
  /\ full_name st_empty 0 = Done "m"
  /\ forall fuel,
       expand_name fuel st_empty 0 "os.path.join" true []
       <> Done "m.os.path.join".
Proof.
  split; [reflexivity|].
  split; [apply never_defines_check; reflexivity|].
  split; [apply no_key_prefixed_check; vm_compute; reflexivity|].
  split; [reflexivity|].
  intros [|f]; [discriminate|].
  vm_compute. discriminate.
Qed.

(** ** Members found by the local lookup *)

Lemma local_member_found st e nm follow chain :
  forall n self m mo,
  local_member st n self nm = Some m -> objs st !! m = Some mo ->
  _local_to_full_name st e n self nm follow chain
  = member_full_name st e m mo follow chain.
Proof.
  induction n as [|n IH]; intros self m mo Hl Hm; [discriminate|].
  simpl in Hl. simpl. unfold get_obj at 1.
  destruct (objs st !! self) as [o|]; [|discriminate]. cbn [bind].
  destruct (negb (HasMembers o)).
  - destruct (parent o); [now apply IH|discriminate].
  - destruct (get_member st o nm) as [m'|].
    + injection Hl as ->. unfold get_obj. rewrite Hm. reflexivity.
    + destruct (is_Class o); [|discriminate].
      destruct (parent o); [now apply IH|discriminate].
Qed.

Lemma nearest_container_member st nm m :
  forall n self c co,
  nearest_container st n self = Some c -> objs st !! c = Some co ->
  get_member st co nm = Some m ->
  local_member st n self nm = Some m.
Proof.
  induction n as [|n IH]; intros self c co Hn Hc Hg; [discriminate|].
  simpl in Hn. simpl.
  destruct (objs st !! self) as [o|] eqn:Ho; [|discriminate].
  destruct (HasMembers o); simpl.
  - injection Hn as <-. rewrite Ho in Hc. injection Hc as ->. now rewrite Hg.
  - destruct (parent o); [eapply IH; eauto|discriminate].
Qed.

Lemma member_full_name_plain st e m mo follow chain :
  is_link mo = false ->
  member_full_name st e m mo follow chain = full_name st m.
Proof.
  unfold is_link, member_full_name. intros H.
  apply orb_false_iff in H. destruct H as [H1 H2].
  rewrite <- andb_assoc, H1, andb_false_r, H2. reflexivity.
Qed.

(** The loop on a name of one part returns what the local lookup
    returns. *)
Lemma expand_loop_single st e f ctx part follow chain fn :
  _local_to_full_name st e (depth_bound st) ctx part follow chain = Done fn ->
  expand_loop st e f ctx 0 [part] follow chain = Done fn.
Proof.
  intros H. cbn [expand_loop]. rewrite H. cbn [bind].
  change (negb (Nat.eqb 0 0)) with false. rewrite andb_false_r. cbn [bind].
  unfold finish. rewrite str_DottedName_single.
  now destruct (dsd_get fn (all_objects st)).
Qed.




(** ** Chains of aliases and indirections *)

Lemma is_alias_value mo :
  is_alias mo = true -> exists v, kind mo = KData (Some v).
Proof.
  unfold is_alias, value_ast. destruct (kind mo) as [| | |[v|]|]; simpl;
    try discriminate. eauto.
Qed.

Lemma member_full_name_link st e m mo chain :
  is_link mo = true ->
  member_full_name st e m mo true chain
  = do r <- _resolve_indirection st e m chain; or_else r (full_name st m).
Proof.
  unfold is_link, member_full_name. intros H. cbn [andb].
  destruct (is_Data mo && is_alias mo) eqn:Ha.
  - apply andb_prop in Ha. destruct Ha as [_ Ha].
    unfold _alias_indirection. rewrite Ha.
    destruct (is_alias_value mo Ha) as [v ->]. reflexivity.
  - simpl in H. now rewrite H.
Qed.

Lemma follows_app ch m m' : m <> m' -> follows (ch ++ [m])%list m' = true.
Proof.
  intros Hne. unfold follows. rewrite last_last.
  assert (Ht : truthy (ch ++ [m])%list = true) by now destruct ch.
  rewrite Ht. cbn [andb negb orb].
  apply orb_true_iff. left. apply negb_true_iff, Nat.eqb_neq. exact Hne.
Qed.

(** Beyond the bound, the full name of the first indirection followed is
    returned and no call is made. *)
Lemma _resolve_indirection_cutoff st e ind first rest :
  _RESOLVE_ALIAS_MAX_RECURSE < length (first :: rest) ->
  _resolve_indirection st e ind (first :: rest)
  = do fn <- full_name st first; Done (Some fn).
Proof.
  intros H. unfold _resolve_indirection.
  apply Nat.ltb_lt in H. rewrite H. reflexivity.
Qed.

(** Within the bound, an indirection that is not the one followed last
    is resolved in the scope where it is declared. *)
Lemma _resolve_indirection_continue st e ind io y ctx ch :
  objs st !! ind = Some io ->
  indirection_target io = Done y ->
  parent io = Some ctx ->
  length ch <= _RESOLVE_ALIAS_MAX_RECURSE ->
  follows ch ind = true ->
  _resolve_indirection st e ind ch
  = do s <- e ctx y true (ch ++ [ind])%list; Done (Some s).
Proof.
  intros Hi Ht Hp Hlen Hf. unfold _resolve_indirection.
  assert (Hc : Nat.ltb _RESOLVE_ALIAS_MAX_RECURSE (length ch) = false)
    by (apply Nat.ltb_ge; exact Hlen).
  rewrite Hc, andb_false_r. unfold get_obj. rewrite Hi. cbn [bind].
  rewrite Ht. cbn [bind]. rewrite Hp.
  unfold follows in Hf. now rewrite Hf.
Qed.

Section Links.

Variable st : ApiObjectsRoot.
Variable e : oid -> string -> bool -> list oid -> outcome string.
Variable f : oid -> string -> outcome (option oid).

(** One step along a chain: the name expands to what its target expands
    to in the declaring scope. *)
Lemma link_step c x m mo y c' ch r :
  local_member st (depth_bound st) c x = Some m ->
  objs st !! m = Some mo ->
  is_link mo = true ->
  indirection_target mo = Done y ->
  parent mo = Some c' ->
  dot_free x = true ->
  length ch <= _RESOLVE_ALIAS_MAX_RECURSE ->
  follows ch m = true ->
  e c' y true (ch ++ [m])%list = Done r ->
  r <> EmptyString ->
  expand_name_body st e f c x true ch = Done r.
Proof.
  intros Hl Hm Hk Ht Hp Hd Hlen Hf He Hr.
  unfold expand_name_body. rewrite (DottedName_dot_free x Hd).
  apply expand_loop_single.
  rewrite (local_member_found st e x true ch _ c m mo Hl Hm).
  rewrite member_full_name_link by exact Hk.
  rewrite (_resolve_indirection_continue st e m mo y c' ch Hm Ht Hp Hlen Hf).
  rewrite He. cbn [bind or_else].
  apply String.eqb_neq in Hr. now rewrite Hr.
Qed.

(** The step beyond the bound. *)
Lemma link_cutoff c x m mo first rest fn0 :
  local_member st (depth_bound st) c x = Some m ->
  objs st !! m = Some mo ->
  is_link mo = true ->
  dot_free x = true ->
  _RESOLVE_ALIAS_MAX_RECURSE < length (first :: rest) ->
  full_name st first = Done fn0 ->
  fn0 <> EmptyString ->
  expand_name_body st e f c x true (first :: rest) = Done fn0.
Proof.
  intros Hl Hm Hk Hd Hlen Hfn Hr.
  unfold expand_name_body. rewrite (DottedName_dot_free x Hd).
  apply expand_loop_single.
  rewrite (local_member_found st e x true _ _ c m mo Hl Hm).
  rewrite member_full_name_link by exact Hk.
  rewrite _resolve_indirection_cutoff by exact Hlen.
  rewrite Hfn. cbn [bind or_else].
  apply String.eqb_neq in Hr. now rewrite Hr.
Qed.

(** The end of a chain: a name of a member that is no link. *)
Lemma plain_step c x o oo ch fno :
  local_member st (depth_bound st) c x = Some o ->
  objs st !! o = Some oo ->
  is_link oo = false ->
  dot_free x = true ->
  full_name st o = Done fno ->
  expand_name_body st e f c x true ch = Done fno.
Proof.
  intros Hl Ho Hk Hd Hfn.
  unfold expand_name_body. rewrite (DottedName_dot_free x Hd).
  apply expand_loop_single.
  rewrite (local_member_found st e x true ch _ c o oo Hl Ho).
  now rewrite member_full_name_plain.
Qed.

End Links.

(** A chain that ends does not pass twice in a row through one link. *)
Lemma no_self_link st k c y o :
  alias_chain st k c y o ->
  forall m mo,
  local_member st (depth_bound st) c y = Some m ->
  objs st !! m = Some mo ->
  indirection_target mo = Done y ->
  parent mo = Some c ->
  False.
Proof.
  induction 1 as [c x m1 mo1 y1 c1 o oo Hl Hm Hk Ht Hd Hp Hlo Ho Hno
                 |k c x m1 mo1 y1 c1 o Hl Hm Hk Ht Hd Hp Hch IH];
    intros m mo Hl' Hm' Ht' Hp'.
  - rewrite Hl in Hl'. injection Hl' as <-.
    rewrite Hm in Hm'. injection Hm' as <-.
    rewrite Ht in Ht'. injection Ht' as ->.
    rewrite Hp in Hp'. injection Hp' as ->.
    rewrite Hl in Hlo. injection Hlo as <-.
    rewrite Hm in Ho. injection Ho as <-. congruence.
  - rewrite Hl in Hl'. injection Hl' as <-.
    rewrite Hm in Hm'. injection Hm' as <-.
    rewrite Ht in Ht'. injection Ht' as ->.
    rewrite Hp in Hp'. injection Hp' as ->.
    eapply IH; eauto.
Qed.

Lemma next_link_differs st k c' y o m mo :
  alias_chain st k c' y o ->
  objs st !! m = Some mo ->
  indirection_target mo = Done y ->
  parent mo = Some c' ->
  forall m', local_member st (depth_bound st) c' y = Some m' -> m <> m'.
Proof.
  intros Hch Hm Ht Hp m' Hl <-. eapply no_self_link; eauto.
Qed.

Lemma chain_resolves st k c x o fno :
  alias_chain st k c x o ->
  full_name st o = Done fno -> fno <> EmptyString ->
  forall ch fuel,
  dot_free x = true ->
  length ch + k <= _RESOLVE_ALIAS_MAX_RECURSE ->
  (forall m, local_member st (depth_bound st) c x = Some m ->
             follows ch m = true) ->
  k + 2 <= fuel ->
  expand_name fuel st c x true ch = Done fno.
Proof.
  intros Hch Hfn Hne.
  induction Hch as [c x m mo y c' o oo Hl Hm Hk Ht Hd Hp Hlo Ho Hno
                   |k c x m mo y c' o Hl Hm Hk Ht Hd Hp Hch IH];
    intros ch fuel Hdx Hlen Hfol Hfuel.
  - destruct fuel as [|[|f2]]; try lia.
    rewrite expand_name_S.
    eapply link_step; eauto; [lia|].
    rewrite expand_name_S. eapply plain_step; eauto.
  - destruct fuel as [|f1]; [lia|].
    rewrite expand_name_S.
    eapply link_step; eauto; [lia|].
    apply IH; auto.
    + rewrite length_app. simpl. lia.
    + intros m' Hl'. apply follows_app.
      eapply next_link_differs; eauto.
    + lia.
Qed.

Lemma chain_degrades st k c x o first fn0 :
  alias_chain st k c x o ->
  full_name st first = Done fn0 -> fn0 <> EmptyString ->
  forall rest fuel,
  dot_free x = true ->
  length (first :: rest) <= S _RESOLVE_ALIAS_MAX_RECURSE ->
  _RESOLVE_ALIAS_MAX_RECURSE < length (first :: rest) + k ->
  (forall m, local_member st (depth_bound st) c x = Some m ->
             follows (first :: rest) m = true) ->
  S (S _RESOLVE_ALIAS_MAX_RECURSE) - length rest <= fuel ->
  expand_name fuel st c x true (first :: rest) = Done fn0.
Proof.
  intros Hch Hfn Hne.
  induction Hch as [c x m mo y c' o oo Hl Hm Hk Ht Hd Hp Hlo Ho Hno
                   |k c x m mo y c' o Hl Hm Hk Ht Hd Hp Hch IH];
    intros rest fuel Hdx Hlen Hbig Hfol Hfuel.
  - destruct fuel as [|f1]; [unfold _RESOLVE_ALIAS_MAX_RECURSE in *; simpl in *; lia|].
    rewrite expand_name_S. eapply link_cutoff; eauto. lia.
  - destruct fuel as [|f1]; [unfold _RESOLVE_ALIAS_MAX_RECURSE in *; simpl in *; lia|].
    rewrite expand_name_S.
    destruct (Nat.ltb_spec _RESOLVE_ALIAS_MAX_RECURSE (length (first :: rest)))
      as [Hcut|Hin].
    + eapply link_cutoff; eauto.
    + eapply link_step; eauto.
      change ((first :: rest) ++ [m])%list with (first :: (rest ++ [m]))%list.
      apply IH; auto.
      * simpl in *. rewrite length_app. simpl. lia.
      * simpl in *. rewrite length_app. simpl. lia.
      * intros m' Hl'.
        change (first :: (rest ++ [m]))%list with ((first :: rest) ++ [m])%list.
        apply follows_app. eapply next_link_differs; eauto.
      * rewrite length_app. simpl.
        unfold _RESOLVE_ALIAS_MAX_RECURSE in *. simpl in *. lia.
Qed.


Ltac chain_links :=
  repeat (eapply chain_next; [reflexivity..|]);
  eapply chain_last; reflexivity.


Example chain6_computed :
  expand_name 7 st_chain6 0 "a0" true [] = Done "m.a6".
Proof. reflexivity. Qed.

Example chain7_computed :
  expand_name 8 st_chain7 0 "a0" true [] = Done "m.a0".
Proof. reflexivity. Qed.

(** ** Totality of the expansion *)

Lemma reaches_root_lookup st n self :
  reaches_root st n self = true -> exists o, objs st !! self = Some o.
Proof.
  destruct n; simpl; [discriminate|].
  destruct (objs st !! self); [eauto|discriminate].
Qed.

Lemma reaches_root_parent st n self o p :
  reaches_root st (S n) self = true -> objs st !! self = Some o ->
  parent o = Some p -> reaches_root st n p = true.
Proof. simpl. intros H Ho Hp. now rewrite Ho, Hp in H. Qed.

Lemma reaches_root_top st n self o :
  reaches_root st (S n) self = true -> objs st !! self = Some o ->
  parent o = None -> is_Module o = true.
Proof. simpl. intros H Ho Hp. now rewrite Ho, Hp in H. Qed.

Lemma link_not_Module mo : is_link mo = true -> is_Module mo = false.
Proof.
  unfold is_link, is_Module, is_Data, is_Indirection.
  destruct (kind mo); simpl; congruence.
Qed.

Lemma wf_parent st self o :
  wf_store st = true -> objs st !! self = Some o -> is_Module o = false ->
  exists p, parent o = Some p /\ valid st p = true.
Proof.
  intros Hwf Ho Hm.
  pose proof (wf_reaches st self Hwf (lookup_valid st self o Ho)) as Hr.
  destruct (depth_bound st) as [|n]; [discriminate|].
  destruct (parent o) as [p|] eqn:Hp.
  - exists p. split; [reflexivity|].
    pose proof (reaches_root_parent st n self o p Hr Ho Hp) as Hrp.
    destruct (reaches_root_lookup st n p Hrp) as [po Hpo].
    eapply lookup_valid; eauto.
  - rewrite (reaches_root_top st n self o Hr Ho Hp) in Hm. discriminate.
Qed.

Lemma wf_registry st k v :
  wf_store st = true -> all_objects st !! k = Some v -> valid st v = true.
Proof.
  unfold wf_store. intros H Hk. apply andb_prop in H. destruct H as [_ H].
  rewrite forallb_forall in H.
  apply elem_of_map_to_list, list_elem_of_In in Hk. exact (H (k, v) Hk).
Qed.

Lemma path_walk_total st : forall n self,
  reaches_root st n self = true ->
  exists l o, path_walk st n self = Done (l ++ [o])%list
              /\ objs st !! self = Some o
              /\ (parent o <> None -> l <> []).
Proof.
  induction n as [|n IH]; intros self Hr; [discriminate|].
  destruct (reaches_root_lookup st _ _ Hr) as [o Ho].
  simpl. unfold get_obj. rewrite Ho. cbn [bind].
  destruct (parent o) as [p|] eqn:Hp.
  - destruct (IH p (reaches_root_parent st n self o p Hr Ho Hp))
      as (l & po & Hl & _ & _).
    rewrite Hl. cbn [bind]. exists (l ++ [po])%list, o.
    split; [reflexivity|]. split; [reflexivity|].
    intros _. now destruct l.
  - exists [], o. repeat split; congruence.
Qed.

Lemma concat_snoc_not_empty (l : list string) x :
  l <> [] -> String.concat "." (l ++ [x])%list <> EmptyString.
Proof.
  intros Hl H. rewrite concat_app in H by (auto; discriminate).
  apply string_app_empty in H. destruct H as [_ H].
  discriminate H.
Qed.

(** The full name of an object is its name, or is not empty. *)
Lemma full_name_total st self :
  wf_store st = true -> valid st self = true ->
  exists s o, full_name st self = Done s /\ objs st !! self = Some o
              /\ (s <> EmptyString \/ s = name o).
Proof.
  intros Hwf Hv.
  destruct (path_walk_total st _ _ (wf_reaches st self Hwf Hv))
    as (l & o & Hp & Ho & Hl).
  unfold full_name, dotted_name, path. rewrite Hp. cbn [bind].
  eexists _, o. split; [reflexivity|]. split; [exact Ho|].
  rewrite str_DottedName_pieces, map_app. simpl.
  destruct l as [|x l].
  - right. reflexivity.
  - left. apply concat_snoc_not_empty. discriminate.
Qed.

Lemma module_walk_total st : forall n self,
  reaches_root st n self = true -> exists m, module_walk st n self = Done m.
Proof.
  induction n as [|n IH]; intros self Hr; [discriminate|].
  destruct (reaches_root_lookup st _ _ Hr) as [o Ho].
  simpl. unfold get_obj. rewrite Ho. cbn [bind].
  destruct (is_Module o) eqn:Hm; [eauto|].
  destruct (parent o) as [p|] eqn:Hp.
  - apply IH. eapply reaches_root_parent; eauto.
  - rewrite (reaches_root_top st n self o Hr Ho Hp) in Hm. discriminate.
Qed.

Lemma module_total st self :
  wf_store st = true -> valid st self = true -> exists m, module st self = Done m.
Proof. intros Hwf Hv. apply module_walk_total. now apply wf_reaches. Qed.

Lemma wf_parent_valid st self o p :
  wf_store st = true -> objs st !! self = Some o -> parent o = Some p ->
  valid st p = true.
Proof.
  intros Hwf Ho Hp.
  pose proof (wf_reaches st self Hwf (lookup_valid st self o Ho)) as Hr.
  destruct (depth_bound st) as [|n]; [discriminate|].
  pose proof (reaches_root_parent st n self o p Hr Ho Hp) as Hrp.
  destruct (reaches_root_lookup st n p Hrp) as [po Hpo].
  eapply lookup_valid; eauto.
Qed.

Lemma link_target mo : is_link mo = true -> exists y, indirection_target mo = Done y.
Proof.
  unfold is_link, indirection_target. intros H.
  apply orb_true_iff in H. destruct H as [H|H].
  - apply andb_prop in H. destruct H as [_ H].
    destruct (is_alias_value mo H) as [[v x] ->]. eauto.
  - unfold is_Indirection in H. destruct (kind mo); try discriminate. eauto.
Qed.

Lemma finish_total fn rest :
  exists s, finish fn rest = Done s
            /\ (fn <> EmptyString \/ rest <> [] -> s <> EmptyString).
Proof.
  unfold finish. eexists. split; [reflexivity|].
  rewrite str_DottedName_pieces. intros H.
  destruct rest as [|r rs].
  - destruct H as [H|H]; [exact H|congruence].
  - rewrite concat_cons_cons. intros E. apply string_app_empty in E.
    destruct E as [_ E]. discriminate E.
Qed.

Section Total.

Variable st : ApiObjectsRoot.
Hypothesis Hwf : wf_store st = true.
Variable e : oid -> string -> bool -> list oid -> outcome string.
Variable f : oid -> string -> outcome (option oid).
Variable ch : list oid.
Hypothesis Hch : chain_ok st ch.
Hypothesis He :
  length ch <= _RESOLVE_ALIAS_MAX_RECURSE ->
  forall self nm ind, valid st self = true -> valid st ind = true ->
  exists s, e self nm true (ch ++ [ind])%list = Done s.
Hypothesis Hf :
  forall c co nm, objs st !! c = Some co -> is_Class co = true ->
  exists r, f c nm = Done r
            /\ forall m, r = Some m ->
                         exists mo, objs st !! m = Some mo /\ name mo = nm.

Lemma _resolve_indirection_total ind io :
  objs st !! ind = Some io -> is_link io = true ->
  exists r, _resolve_indirection st e ind ch = Done r.
Proof.
  intros Hi Hl. unfold _resolve_indirection.
  destruct (truthy ch && Nat.ltb _RESOLVE_ALIAS_MAX_RECURSE (length ch)) eqn:Hcut.
  - destruct ch as [|first rest]; [discriminate|].
    inversion Hch as [|? ? Hfirst _]; subst.
    destruct (full_name_total st first Hwf Hfirst) as (s & o & Hs & _).
    rewrite Hs. cbn [bind]. eauto.
  - assert (Hlen : length ch <= _RESOLVE_ALIAS_MAX_RECURSE).
    { apply andb_false_iff in Hcut. destruct Hcut as [H|H].
      - destruct ch; [simpl; lia|discriminate].
      - now apply Nat.ltb_ge in H. }
    unfold get_obj at 1. rewrite Hi. cbn [bind].
    destruct (link_target io Hl) as [y Hy]. rewrite Hy. cbn [bind].
    destruct (wf_parent st ind io Hwf Hi (link_not_Module io Hl))
      as (ctx & Hp & Hctx).
    rewrite Hp.
    pose proof (lookup_valid st ind io Hi) as Hind.
    destruct (_ || _).
    + destruct (He Hlen ctx y ind Hctx Hind) as [s Hs]. rewrite Hs.
      cbn [bind]. eauto.
    + destruct (valid_lookup st ctx Hctx) as [co Hco].
      unfold get_obj. rewrite Hco. cbn [bind].
      destruct (parent co) as [p|] eqn:Hpp; [|eauto].
      pose proof (wf_parent_valid st ctx co p Hwf Hco Hpp) as Hpv.
      destruct (module_total st ctx Hwf Hctx) as [cm Hcm].
      destruct (module_total st p Hwf Hpv) as [pm Hpm].
      rewrite Hcm, Hpm. cbn [bind].
      destruct (Nat.eqb cm pm); [|eauto].
      destruct (He Hlen p y ind Hpv Hind) as [s Hs]. rewrite Hs.
      cbn [bind]. eauto.
Qed.

Lemma or_else_total r m mo :
  objs st !! m = Some mo ->
  exists fn, or_else r (full_name st m) = Done fn
             /\ (fn <> EmptyString \/ fn = name mo).
Proof.
  intros Hm.
  destruct (full_name_total st m Hwf (lookup_valid st m mo Hm))
    as (s & o & Hs & Ho & Hp).
  rewrite Hm in Ho. injection Ho as <-.
  unfold or_else. destruct r as [s'|]; [|eauto].
  destruct (String.eqb_spec s' EmptyString); eauto.
Qed.

Lemma member_full_name_total m mo follow :
  objs st !! m = Some mo ->
  exists fn, member_full_name st e m mo follow ch = Done fn
             /\ (fn <> EmptyString \/ fn = name mo).
Proof.
  intros Hm. unfold member_full_name.
  destruct (follow && is_Data mo && is_alias mo) eqn:Ha.
  - apply andb_prop in Ha. destruct Ha as [Ha1 Ha].
    apply andb_prop in Ha1. destruct Ha1 as [_ Hd].
    unfold _alias_indirection. rewrite Ha.
    destruct (is_alias_value mo Ha) as [v Hv]. rewrite Hv. cbn [bind].
    destruct (_resolve_indirection_total m mo Hm) as [r Hr].
    { unfold is_link. now rewrite Hd, Ha. }
    rewrite Hr. cbn [bind]. now apply or_else_total.
  - destruct (is_Indirection mo) eqn:Hi.
    + destruct (_resolve_indirection_total m mo Hm) as [r Hr].
      { unfold is_link. rewrite Hi. apply orb_true_r. }
      rewrite Hr. cbn [bind]. now apply or_else_total.
    + destruct (full_name_total st m Hwf (lookup_valid st m mo Hm))
        as (s & o & Hs & Ho & Hp).
      rewrite Hm in Ho. injection Ho as <-. eauto.
Qed.

Lemma _local_to_full_name_total nm follow : forall n self,
  reaches_root st n self = true ->
  exists fn, _local_to_full_name st e n self nm follow ch = Done fn
             /\ (fn <> EmptyString \/ fn = nm).
Proof.
  induction n as [|n IH]; intros self Hr; [discriminate|].
  destruct (reaches_root_lookup st _ _ Hr) as [o Ho].
  cbn [_local_to_full_name]. unfold get_obj at 1. rewrite Ho. cbn [bind].
  destruct (parent o) as [p|] eqn:Hp.
  - pose proof (reaches_root_parent st n self o p Hr Ho Hp) as Hrp.
    destruct (negb (HasMembers o)); [now apply IH|].
    destruct (get_member st o nm) as [m|] eqn:Hg.
    + apply get_member_Some in Hg. destruct Hg as (_ & _ & mo & Hm & Hn).
      unfold get_obj. rewrite Hm. cbn [bind]. rewrite <- Hn.
      now apply member_full_name_total.
    + destruct (is_Class o); [now apply IH|eauto].
  - pose proof (reaches_root_top st n self o Hr Ho Hp) as Hmod.
    rewrite (Module_HasMembers o Hmod). cbn [negb].
    destruct (get_member st o nm) as [m|] eqn:Hg.
    + apply get_member_Some in Hg. destruct Hg as (_ & _ & mo & Hm & Hn).
      unfold get_obj. rewrite Hm. cbn [bind]. rewrite <- Hn.
      now apply member_full_name_total.
    + unfold is_Class. unfold is_Module in Hmod.
      destruct (kind o); try discriminate. eauto.
Qed.

Lemma expand_loop_total follow : forall parts ctx i,
  valid st ctx = true -> parts <> [] ->
  exists s, expand_loop st e f ctx i parts follow ch = Done s
            /\ ((i = 0 -> forall p, parts = [p] -> p <> EmptyString) ->
                s <> EmptyString).
Proof.
  induction parts as [|part rest IH]; intros ctx i Hv Hne; [contradiction|].
  cbn [expand_loop].
  destruct (_local_to_full_name_total part follow _ ctx
              (wf_reaches st ctx Hwf Hv)) as (fn & Hfn & Hfnp).
  rewrite Hfn. cbn [bind].
  destruct (valid_lookup st ctx Hv) as [co Hco].
  assert (Htail : forall x,
    (rest = [] -> (i = 0 -> forall p, part :: rest = [p] -> p <> EmptyString)
       -> x <> EmptyString) ->
    exists s,
      match dsd_get x (all_objects st) with
      | Some nxt =>
          match rest with
          | [] => finish x []
          | _ :: _ => expand_loop st e f nxt (S i) rest follow ch
          end
      | None => finish x rest
      end = Done s
      /\ ((i = 0 -> forall p, part :: rest = [p] -> p <> EmptyString) ->
          s <> EmptyString)).
  { intros x Hx.
    assert (Hfin : exists s, finish x rest = Done s
              /\ ((i = 0 -> forall p, part :: rest = [p] -> p <> EmptyString) ->
                  s <> EmptyString)).
    { destruct (finish_total x rest) as (s & Hs & Hsn). exists s.
      split; [exact Hs|]. intros Hc. apply Hsn.
      destruct rest; [left; now apply Hx|right; discriminate]. }
    destruct (dsd_get x (all_objects st)) as [nxt|] eqn:Hreg; [|exact Hfin].
    destruct rest as [|r rs]; [exact Hfin|].
    destruct (IH nxt (S i) (wf_registry st x nxt Hwf Hreg)) as (s & Hs & Hsn);
      [discriminate|].
    exists s. split; [exact Hs|]. intros _. apply Hsn. intros; lia. }
  destruct (String.eqb fn part && negb (Nat.eqb i 0)) eqn:Hcond.
  - apply andb_prop in Hcond. destruct Hcond as [Heq Hi].
    apply String.eqb_eq in Heq. subst fn.
    unfold get_obj. rewrite Hco. cbn [bind].
    assert (Hfound : exists fn',
      (if is_Class co then
         do f0 <- f ctx part;
         match f0 with
         | Some f1 => full_name st f1
         | None => Done part
         end
       else Done part) = Done fn'
      /\ (fn' <> EmptyString \/ fn' = part)).
    { destruct (is_Class co) eqn:Hcls; [|eauto].
      destruct (Hf ctx co part Hco Hcls) as (r & Hr & Hrm).
      rewrite Hr. cbn [bind]. destruct r as [m|]; [|eauto].
      destruct (Hrm m eq_refl) as (mo & Hm & Hn).
      destruct (full_name_total st m Hwf (lookup_valid st m mo Hm))
        as (s & o & Hs & Ho & Hp).
      rewrite Hm in Ho. injection Ho as <-. rewrite Hn in Hp. eauto. }
    destruct Hfound as (fn' & Hfn' & Hfn'p). rewrite Hfn'. cbn [bind].
    destruct (String.eqb_spec fn' part) as [-> | Hdiff].
    + destruct (full_name_total st ctx Hwf Hv) as (cfn & o & Hs & _).
      rewrite Hs. cbn [bind]. cbv beta iota.
      destruct (finish_total (cfn ++ "." ++ part) rest) as (s & Hs' & Hsn).
      exists s. split; [exact Hs'|]. intros _. apply Hsn. left.
      intros E. apply string_app_empty in E. destruct E as [_ E].
      discriminate E.
    + cbn [bind]. cbv beta iota. apply Htail. intros _ _.
      destruct Hfn'p; congruence.
  - cbn [bind]. cbv beta iota. apply Htail. intros Hrest Hc.
    destruct Hfnp as [H | ->]; [exact H|].
    rewrite String.eqb_refl in Hcond. simpl in Hcond.
    apply negb_false_iff, Nat.eqb_eq in Hcond.
    apply (Hc Hcond). now rewrite Hrest.
Qed.

Lemma expand_name_body_total self nm follow :
  valid st self = true ->
  exists s, expand_name_body st e f self nm follow ch = Done s
            /\ (nm <> EmptyString -> s <> EmptyString).
Proof.
  intros Hv. unfold expand_name_body.
  destruct (expand_loop_total follow (DottedName [nm]) self 0 Hv
              (DottedName_not_nil nm [])) as (s & Hs & Hsn).
  exists s. split; [exact Hs|]. intros Hnm. apply Hsn. intros _ p Hp.
  pose proof (str_DottedName_single nm) as E. rewrite Hp in E.
  unfold str_DottedName in E. simpl in E. congruence.
Qed.

End Total.

Lemma first_member_Some st l nm m :
  first_member st l nm = Some m ->
  exists mo, objs st !! m = Some mo /\ name mo = nm.
Proof.
  induction l as [|[b|s] l IH]; simpl; [discriminate| |exact IH].
  destruct (objs st !! b) as [bo|]; [|exact IH].
  destruct (is_Class bo); [|exact IH].
  destruct (get_member st bo nm) as [m'|] eqn:Hg; [|exact IH].
  intros [= ->]. apply get_member_Some in Hg.
  destruct Hg as (_ & _ & mo & Hm & Hn). eauto.
Qed.

(** Where the bases of every class can be enumerated, [find] returns. *)
Lemma bases_terminate_find st N :
  bases_terminate N st = true ->
  forall fuel, N <= fuel ->
  forall c co nm, objs st !! c = Some co -> is_Class co = true ->
  exists r, find fuel st c nm = Done r
            /\ forall m, r = Some m ->
                         exists mo, objs st !! m = Some mo /\ name mo = nm.
Proof.
  intros Hb fuel Hfuel c co nm Hc Hcls.
  unfold bases_terminate in Hb. rewrite forallb_forall in Hb.
  assert (Hin : In c (seq 0 (length (objs st)))).
  { apply in_seq. pose proof (lookup_valid st c co Hc) as Hv.
    unfold valid in Hv. apply Nat.ltb_lt in Hv. lia. }
  specialize (Hb c Hin). rewrite Hc, Hcls in Hb.
  destruct (all_bases N st c true) as [l| |] eqn:Hall; try discriminate.
  exists (first_member st l nm). split.
  - apply (find_mono st N fuel); [exact Hfuel|].
    eapply find_all_bases; eauto.
  - intros m Hm. eapply first_member_Some; eauto.
Qed.

Lemma expand_name_total_fuel st N :
  wf_store st = true -> bases_terminate N st = true ->
  forall d ch, chain_ok st ch ->
  S _RESOLVE_ALIAS_MAX_RECURSE <= length ch + d ->
  forall fuel, N + 1 + d <= fuel ->
  forall self nm follow, valid st self = true ->
  exists s, expand_name fuel st self nm follow ch = Done s
            /\ (nm <> EmptyString -> s <> EmptyString).
Proof.
  intros Hwf Hb. induction d as [|d IH];
    intros ch Hch Hlen fuel Hfuel self nm follow Hv.
  - destruct fuel as [|f]; [lia|]. rewrite expand_name_S.
    apply expand_name_body_total; auto.
    + intros Hle. lia.
    + apply bases_terminate_find with (N := N); auto. lia.
  - destruct fuel as [|f]; [lia|]. rewrite expand_name_S.
    apply expand_name_body_total; auto.
    + intros _ self' nm' ind Hs Hi.
      destruct (IH (ch ++ [ind])%list) with (fuel := f) (self := self')
        (nm := nm') (follow := true) as (s & Hs' & _); auto.
      * apply Forall_app. split; [exact Hch|]. now constructor.
      * rewrite length_app. simpl. lia.
      * lia.
      * eauto.
    + apply bases_terminate_find with (N := N); auto. lia.
Qed.



Example diamond_computed :
  expand_name 3 st_diamond 0 "C.m" true [] = Done "m.A.m".
Proof. reflexivity. Qed.

(** [find] on a class with one base, which resolves to a class, and no
    member of that name: the scan goes on in the base. *)
Lemma find_single_base st f c co p base b bo fnb nm :
  objs st !! c = Some co -> kind co = KClass [base] -> parent co = Some p ->
  get_member st co nm = None ->
  expand_name f st p base true [] = Done fnb ->
  all_objects st !! fnb = Some b ->
  objs st !! b = Some bo -> is_Class bo = true ->
  find (S f) st c nm
  = do r <- find f st b nm;
    match r with Some m => Done (Some m) | None => Done None end.
Proof.
  intros Hc Hk Hp Hg He Hreg Hb Hcls.
  rewrite find_S. unfold find_body, resolved_bases_body, get_obj.
  rewrite Hc. cbn [bind]. rewrite Hg, Hk, Hp. cbn [resolve_bases].
  rewrite He. cbn [bind]. unfold dsd_get. rewrite Hreg. cbn [bind].
  cbn [find_in_bases]. unfold get_obj. rewrite Hb. cbn [bind].
  now rewrite Hcls.
Qed.

Lemma cyclic_find_diverges : forall f,
  find f st_cyclic 1 "x" = Diverged /\ find f st_cyclic 2 "x" = Diverged.
Proof.
  induction f as [|f [IHA IHB]]; [split; reflexivity|].
  destruct f as [|f']; [split; reflexivity|]. split.
  - rewrite (find_single_base st_cyclic (S f') 1
               (obj "A" (KClass ["B"]) (Some 0) []) 0 "B" 2
               (obj "B" (KClass ["A"]) (Some 0) []) "m.B" "x");
      try reflexivity.
    now rewrite IHB.
  - rewrite (find_single_base st_cyclic (S f') 2
               (obj "B" (KClass ["A"]) (Some 0) []) 0 "A" 1
               (obj "A" (KClass ["B"]) (Some 0) []) "m.A" "x");
      try reflexivity.
    now rewrite IHA.
Qed.


(** ** Aliases of their own name *)

Lemma follows_same ch ind :
  ch <> [] -> List.last ch ind = ind -> follows ch ind = false.
Proof.
  intros Hne Hl. unfold follows. rewrite Hl, Nat.eqb_refl.
  destruct ch; [contradiction|reflexivity].
Qed.

Lemma _resolve_indirection_same st e ind io y ctx co ch :
  objs st !! ind = Some io ->
  indirection_target io = Done y ->
  parent io = Some ctx ->
  objs st !! ctx = Some co ->
  ch <> [] -> List.last ch ind = ind ->
  length ch <= _RESOLVE_ALIAS_MAX_RECURSE ->
  _resolve_indirection st e ind ch
  = match parent co with
    | Some p =>
        do cm <- module st ctx;
        do pm <- module st p;
        if Nat.eqb cm pm then
          do s <- e p y true (ch ++ [ind])%list; Done (Some s)
        else Done None
    | None => Done None
    end.
Proof.
  intros Hi Ht Hp Hc Hne Hl Hlen. unfold _resolve_indirection.
  assert (Hcut : Nat.ltb _RESOLVE_ALIAS_MAX_RECURSE (length ch) = false)
    by (apply Nat.ltb_ge; exact Hlen).
  rewrite Hcut, andb_false_r. unfold get_obj. rewrite Hi. cbn [bind].
  rewrite Ht. cbn [bind]. rewrite Hp.
  pose proof (follows_same ch ind Hne Hl) as Hf. unfold follows in Hf.
  rewrite Hf, Hc. reflexivity.
Qed.



(** ** Full names resolve to their objects *)

Lemma string_length_app (a b : string) :
  String.length (a ++ b) = String.length a + String.length b.
Proof.
  induction a as [|c a IH]; [reflexivity|].
  rewrite string_app_cons. simpl. now rewrite IH.
Qed.

Lemma qualified_differs (a n : string) : a ++ "." ++ n <> n.
Proof.
  intros H. apply (f_equal String.length) in H.
  rewrite !string_length_app in H. simpl in H. lia.
Qed.

Lemma split_dot_app_dot x s :
  dot_free x = true -> split_dot (x ++ "." ++ s) = x :: split_dot s.
Proof.
  induction x as [|c x IH]; intros Hd; [reflexivity|].
  simpl in Hd. apply andb_prop in Hd. destruct Hd as [Hc Hx].
  rewrite string_app_cons. cbn [split_dot].
  apply negb_true_iff in Hc. rewrite Hc, (IH Hx). reflexivity.
Qed.

Lemma split_dot_concat l :
  Forall (fun x => dot_free x = true) l -> l <> [] ->
  split_dot (String.concat "." l) = l.
Proof.
  induction l as [|x l IH]; intros Hall Hne; [contradiction|].
  inversion Hall as [|? ? Hx Hl]; subst.
  destruct l as [|y l].
  - simpl. now apply split_dot_dot_free.
  - rewrite concat_cons_cons, split_dot_app_dot by exact Hx.
    rewrite IH; [reflexivity|exact Hl|discriminate].
Qed.

Lemma path_walk_S st n self :
  path_walk st (S n) self
  = do o <- get_obj st self;
    match parent o with
    | None => Done [o]
    | Some p => do above <- path_walk st n p; Done (above ++ [o])%list
    end.
Proof. reflexivity. Qed.

Lemma path_walk_mono st : forall n self l,
  path_walk st n self = Done l -> path_walk st (S n) self = Done l.
Proof.
  induction n as [|n IH]; intros self l H; [discriminate|].
  rewrite path_walk_S in H. rewrite path_walk_S.
  destruct (get_obj st self) as [o| |]; try discriminate. cbn [bind] in *.
  destruct (parent o) as [p|]; [|exact H].
  apply bind_Done in H. destruct H as (above & Ha & H).
  rewrite (IH p above Ha). exact H.
Qed.

Lemma path_walk_not_nil st n self l : path_walk st n self = Done l -> l <> [].
Proof.
  destruct n as [|n]; [discriminate|]. cbn [path_walk].
  destruct (get_obj st self) as [o| |]; try discriminate. cbn [bind].
  destruct (parent o) as [p|].
  - intros H. apply bind_Done in H. destruct H as (above & _ & H).
    injection H as <-. now destruct above.
  - intros [= <-]. discriminate.
Qed.

(** The full name of a child is that of its parent, a dot, its name. *)
Lemma full_name_child st m mo ctx fm :
  objs st !! m = Some mo -> parent mo = Some ctx ->
  full_name st m = Done fm ->
  exists fc, full_name st ctx = Done fc /\ fm = fc ++ "." ++ name mo.
Proof.
  intros Hm Hp H. unfold full_name, dotted_name, path in *.
  destruct (depth_bound st) as [|n]; [discriminate|].
  cbn [path_walk] in H. unfold get_obj in H at 1. rewrite Hm in H.
  cbn [bind] in H. rewrite Hp in H.
  destruct (path_walk st n ctx) as [above| |] eqn:Ha; try discriminate.
  cbn [bind] in H. injection H as <-.
  rewrite (path_walk_mono st n ctx above Ha). cbn [bind].
  eexists. split; [reflexivity|].
  rewrite !str_DottedName_pieces, map_app. simpl.
  rewrite concat_app; [reflexivity| |discriminate].
  pose proof (path_walk_not_nil st n ctx above Ha). now destruct above.
Qed.

Lemma full_name_root st M mo :
  objs st !! M = Some mo -> parent mo = None ->
  full_name st M = Done (name mo).
Proof.
  intros Hm Hp. unfold full_name, dotted_name, path.
  pose proof (lookup_valid st M mo Hm) as Hv. unfold valid in Hv.
  apply Nat.ltb_lt in Hv. unfold depth_bound.
  destruct (length (objs st)) as [|n]; [lia|].
  cbn [path_walk]. unfold get_obj. rewrite Hm. cbn [bind]. rewrite Hp.
  cbn [bind]. simpl map. now rewrite str_DottedName_single.
Qed.

Lemma depth_bound_pos st i o :
  objs st !! i = Some o -> exists n, depth_bound st = S n.
Proof.
  intros H. pose proof (lookup_valid st i o H) as Hv. unfold valid in Hv.
  apply Nat.ltb_lt in Hv. unfold depth_bound.
  destruct (length (objs st)) as [|n]; [lia|eauto].
Qed.

Lemma local_member_direct st ctx co n m :
  objs st !! ctx = Some co -> get_member st co n = Some m ->
  local_member st (depth_bound st) ctx n = Some m.
Proof.
  intros Hc Hg. destruct (depth_bound_pos st ctx co Hc) as [k ->].
  cbn [local_member]. rewrite Hc.
  destruct (get_member_Some st co n m Hg) as (Hh & _). rewrite Hh, Hg.
  reflexivity.
Qed.

Lemma local_module_unknown st e R ro nm follow ch :
  objs st !! R = Some ro -> is_Module ro = true ->
  get_member st ro nm = None ->
  _local_to_full_name st e (depth_bound st) R nm follow ch = Done nm.
Proof.
  intros HR Hm Hg. destruct (depth_bound_pos st R ro HR) as [k ->].
  cbn [_local_to_full_name]. unfold get_obj. rewrite HR. cbn [bind].
  rewrite (Module_HasMembers ro Hm), Hg. cbn [negb].
  unfold is_Class. unfold is_Module in Hm.
  destruct (kind ro); try discriminate. reflexivity.
Qed.

Lemma descends_dot_free st ctx names E :
  descends st ctx names E -> Forall (fun x => dot_free x = true) names.
Proof. induction 1; constructor; auto. Qed.

Lemma descends_full_name st ctx names E :
  descends st ctx names E ->
  forall fc fe, full_name st ctx = Done fc -> full_name st E = Done fe ->
  fe = String.concat "." (fc :: names).
Proof.
  induction 1 as [ctx|ctx co n m mo fm rest E Hc Hg Hm Hl Hd Hp Hfm Hreg Hdesc IH];
    intros fc fe Hfc Hfe.
  - simpl. congruence.
  - destruct (full_name_child st m mo ctx fm Hm Hp Hfm) as (fc' & Hfc' & ->).
    rewrite Hfc in Hfc'. injection Hfc' as <-.
    apply get_member_Some in Hg. destruct Hg as (_ & _ & mo' & Hm' & Hn).
    rewrite Hm in Hm'. injection Hm' as <-. rewrite Hn in *.
    rewrite (IH _ fe Hfm Hfe). rewrite concat_cons_cons.
    destruct rest as [|r rs]; [reflexivity|].
    rewrite !concat_cons_cons, !string_app_assoc. reflexivity.
Qed.

Lemma descends_registered st ctx names E :
  descends st ctx names E -> names <> [] ->
  forall fe, full_name st E = Done fe -> all_objects st !! fe = Some E.
Proof.
  induction 1 as [ctx|ctx co n m mo fm rest E Hc Hg Hm Hl Hd Hp Hfm Hreg Hdesc IH];
    intros Hne fe Hfe; [contradiction|].
  destruct rest as [|r rs].
  - inversion Hdesc; subst. congruence.
  - apply IH; [discriminate|exact Hfe].
Qed.

Lemma descends_loop st e f follow ch ctx names E :
  descends st ctx names E -> names <> [] ->
  forall i fe, i <> 0 -> full_name st E = Done fe ->
  expand_loop st e f ctx i names follow ch = Done fe.
Proof.
  induction 1 as [ctx|ctx co n m mo fm rest E Hc Hg Hm Hl Hd Hp Hfm Hreg Hdesc IH];
    intros Hne i fe Hi Hfe; [contradiction|].
  cbn [expand_loop].
  rewrite (local_member_found st e n follow ch _ ctx m mo
             (local_member_direct st ctx co n m Hc Hg) Hm).
  rewrite (member_full_name_plain st e m mo follow ch Hl), Hfm. cbn [bind].
  assert (Hdiff : String.eqb fm n = false).
  { apply String.eqb_neq.
    destruct (full_name_child st m mo ctx fm Hm Hp Hfm) as (fc & _ & ->).
    apply get_member_Some in Hg. destruct Hg as (_ & _ & mo' & Hm' & Hn).
    rewrite Hm in Hm'. injection Hm' as <-. rewrite Hn.
    apply qualified_differs. }
  rewrite Hdiff. cbn [andb bind]. cbv beta iota.
  unfold dsd_get. rewrite Hreg.
  destruct rest as [|r rs].
  - inversion Hdesc; subst. unfold finish.
    rewrite str_DottedName_single. congruence.
  - apply IH; [discriminate|lia|exact Hfe].
Qed.




(** * Further properties *)


(** ** Modules and root modules *)

Lemma module_walk_S st n self :
  module_walk st (S n) self
  = do o <- get_obj st self;
    if is_Module o then Done self
    else match parent o with
         | None => Raised AssertionError
         | Some p => module_walk st n p
         end.
Proof. reflexivity. Qed.

Lemma module_walk_mono st : forall n self m,
  module_walk st n self = Done m -> module_walk st (S n) self = Done m.
Proof.
  induction n as [|n IH]; intros self m H; [discriminate|].
  rewrite module_walk_S in H. rewrite module_walk_S.
  destruct (get_obj st self) as [o| |]; try discriminate. cbn [bind] in *.
  destruct (is_Module o); [exact H|].
  destruct (parent o) as [p|]; [|discriminate]. now apply IH.
Qed.

Lemma module_walk_Module st : forall n self m,
  module_walk st n self = Done m ->
  exists mo, objs st !! m = Some mo /\ is_Module mo = true.
Proof.
  induction n as [|n IH]; intros self m H; [discriminate|].
  rewrite module_walk_S in H. unfold get_obj in H.
  destruct (objs st !! self) as [o|] eqn:Ho; [|discriminate].
  cbn [bind] in H. destruct (is_Module o) eqn:Hm.
  - injection H as <-. eauto.
  - destruct (parent o) as [p|]; [|discriminate]. eapply IH; eauto.
Qed.

(** X1: in a well-formed tree [module] returns for every object; what it
    returns is a module and is its own module; and an object that is no
    module has the module of its parent. *)
Theorem module_nearest_module st e o :
  wf_store st = true -> objs st !! e = Some o ->
  exists m mo,
    module st e = Done m /\ objs st !! m = Some mo /\ is_Module mo = true
    /\ module st m = Done m
    /\ (is_Module o = true -> m = e)
    /\ (is_Module o = false ->
        exists p, parent o = Some p /\ module st p = Done m).
Proof.
  intros Hwf Ho. pose proof (lookup_valid st e o Ho) as Hv.
  destruct (module_total st e Hwf Hv) as [m Hm].
  destruct (module_walk_Module st _ e m Hm) as (mo & Hmo & Hmod).
  exists m, mo. split; [exact Hm|]. split; [exact Hmo|].
  split; [exact Hmod|].
  unfold module in *. destruct (depth_bound st) as [|n]; [discriminate|].
  split; [|split].
  - rewrite module_walk_S. unfold get_obj. rewrite Hmo. cbn [bind].
    now rewrite Hmod.
  - intros Hi. rewrite module_walk_S in Hm. unfold get_obj in Hm.
    rewrite Ho in Hm. cbn [bind] in Hm. rewrite Hi in Hm. congruence.
  - intros Hi. rewrite module_walk_S in Hm. unfold get_obj in Hm.
    rewrite Ho in Hm. cbn [bind] in Hm. rewrite Hi in Hm.
    destruct (parent o) as [p|]; [|discriminate].
    exists p. split; [reflexivity|]. now apply module_walk_mono.
Qed.

Lemma module_nearest_module_witness :
  exists m mo,
    module st_diamond 2 = Done m /\ objs st_diamond !! m = Some mo
    /\ is_Module mo = true /\ module st_diamond m = Done m
    /\ (is_Module (obj "m" KFunction (Some 1) []) = true -> m = 2)
    /\ (is_Module (obj "m" KFunction (Some 1) []) = false ->
        exists p, parent (obj "m" KFunction (Some 1) []) = Some p
                  /\ module st_diamond p = Done m).
Proof.
  apply (module_nearest_module st_diamond 2 (obj "m" KFunction (Some 1) []));
    reflexivity.
Defined.

Lemma root_module_walk_S st n self :
  root_module_walk st (S n) self
  = do o <- get_obj st self;
    if is_Module o && negb (has_parent o) then Done self
    else match parent o with
         | None => Raised AssertionError
         | Some p => root_module_walk st n p
         end.
Proof. reflexivity. Qed.

Lemma root_module_walk_mono st : forall n self r,
  root_module_walk st n self = Done r ->
  root_module_walk st (S n) self = Done r.
Proof.
  induction n as [|n IH]; intros self r H; [discriminate|].
  rewrite root_module_walk_S in H. rewrite root_module_walk_S.
  destruct (get_obj st self) as [o| |]; try discriminate. cbn [bind] in *.
  destruct (is_Module o && negb (has_parent o)); [exact H|].
  destruct (parent o) as [p|]; [|discriminate]. now apply IH.
Qed.

Lemma root_module_walk_spec st : forall n self,
  reaches_root st n self = true ->
  exists r ro rest,
    root_module_walk st n self = Done r
    /\ objs st !! r = Some ro /\ is_Module ro = true /\ parent ro = None
    /\ path_walk st n self = Done (ro :: rest).
Proof.
  induction n as [|n IH]; intros self Hr; [discriminate|].
  destruct (reaches_root_lookup st _ _ Hr) as [o Ho].
  rewrite root_module_walk_S, path_walk_S. unfold get_obj. rewrite Ho.
  cbn [bind]. unfold has_parent.
  destruct (parent o) as [p|] eqn:Hp.
  - rewrite andb_false_r.
    destruct (IH p (reaches_root_parent st n self o p Hr Ho Hp))
      as (r & ro & rest & Hrm & Hro & Hmod & Hnp & Hpath).
    exists r, ro, (rest ++ [o])%list. rewrite Hrm, Hpath. cbn [bind].
    repeat split; auto.
  - pose proof (reaches_root_top st n self o Hr Ho Hp) as Hmod.
    rewrite Hmod. cbn [andb negb].
    exists self, o, []. repeat split; auto.
Qed.

Lemma root_module_walk_of_module st : forall n self m r,
  module_walk st n self = Done m ->
  root_module_walk st n self = Done r ->
  root_module_walk st n m = Done r.
Proof.
  induction n as [|n IH]; intros self m r Hm Hr; [discriminate|].
  rewrite module_walk_S in Hm. unfold get_obj in Hm.
  destruct (objs st !! self) as [o|] eqn:Ho; [|discriminate].
  cbn [bind] in Hm. destruct (is_Module o) eqn:Hi.
  - injection Hm as <-. exact Hr.
  - destruct (parent o) as [p|] eqn:Hp; [|discriminate].
    rewrite root_module_walk_S in Hr. unfold get_obj in Hr.
    rewrite Ho in Hr. cbn [bind] in Hr. rewrite Hi, Hp in Hr.
    cbn [andb] in Hr. apply root_module_walk_mono. eapply IH; eauto.
Qed.

(** X2: in a well-formed tree [root_module] returns, for every object, a
    module without a parent, which is the first object of its [path] and
    its own root module; the module of the object has the same root
    module. *)
Theorem root_module_heads_path st e :
  wf_store st = true -> valid st e = true ->
  exists r ro rest m,
    root_module st e = Done r
    /\ objs st !! r = Some ro /\ is_Module ro = true /\ parent ro = None
    /\ path st e = Done (ro :: rest)
    /\ root_module st r = Done r
    /\ module st e = Done m /\ root_module st m = Done r.
Proof.
  intros Hwf Hv.
  destruct (root_module_walk_spec st _ e (wf_reaches st e Hwf Hv))
    as (r & ro & rest & Hrm & Hro & Hmod & Hnp & Hpath).
  destruct (module_total st e Hwf Hv) as [m Hm].
  exists r, ro, rest, m. unfold root_module, path.
  repeat (split; [assumption|]).
  split; [|split; [exact Hm|]].
  - destruct (depth_bound_pos st r ro Hro) as [k ->].
    rewrite root_module_walk_S. unfold get_obj, has_parent.
    rewrite Hro. cbn [bind]. now rewrite Hmod, Hnp.
  - eapply root_module_walk_of_module; eauto.
Qed.

Lemma root_module_heads_path_witness :
  exists r ro rest m,
    root_module st_diamond 2 = Done r
    /\ objs st_diamond !! r = Some ro /\ is_Module ro = true
    /\ parent ro = None
    /\ path st_diamond 2 = Done (ro :: rest)
    /\ root_module st_diamond r = Done r
    /\ module st_diamond 2 = Done m /\ root_module st_diamond m = Done r.
Proof.
  apply (root_module_heads_path st_diamond 2); reflexivity.
Defined.

(** ** Full names *)

(** X3: the full name of an object without a parent is its name; that of
    an object with a parent is the full name of the parent, a dot, and
    its name; so two objects of one parent with one name have one full
    name. *)
Theorem full_name_qualifies st a ao :
  objs st !! a = Some ao ->
  (parent ao = None -> full_name st a = Done (name ao))
  /\ (forall p fa,
        parent ao = Some p -> full_name st a = Done fa ->
        (exists fp, full_name st p = Done fp /\ fa = fp ++ "." ++ name ao)
        /\ forall b bo,
             objs st !! b = Some bo -> parent bo = Some p ->
             name bo = name ao -> full_name st b = Done fa).
Proof.
  intros Ha. split; [now apply full_name_root|].
  intros p fa Hp Hfa. split; [eapply full_name_child; eauto|].
  intros b bo Hb Hbp Hn.
  unfold full_name, dotted_name, path in *.
  destruct (depth_bound st) as [|n]; [discriminate|].
  rewrite path_walk_S in Hfa. rewrite path_walk_S.
  unfold get_obj in *. rewrite Ha in Hfa. rewrite Hb.
  cbn [bind] in *. rewrite Hp in Hfa. rewrite Hbp.
  destruct (path_walk st n p) as [above| |]; try discriminate.
  cbn [bind] in *. rewrite map_app in *. simpl in *. now rewrite Hn.
Qed.

Lemma full_name_qualifies_witness :
  full_name st_dup 2 = Done "m.A".
Proof.
  refine (proj2 (proj2 (full_name_qualifies st_dup 1
            (obj "A" (KClass []) (Some 0) []) _) 0 "m.A" _ _)
            2 (obj "A" (KClass []) (Some 0) []) _ _ _); reflexivity.
Defined.

(** ** Members *)

Lemma find_head_filter {A} (p : A -> bool) (l : list A) :
  List.find p l = head (List.filter p l).
Proof.
  induction l as [|x l IH]; [reflexivity|].
  simpl. destruct (p x); [reflexivity|exact IH].
Qed.



(** ** What [find] returns *)

Lemma find_in_bases_member st (f : oid -> string -> outcome (option oid)) nm
    (P : oid -> Prop) :
  (forall b m, f b nm = Done (Some m) -> P m) ->
  forall bs m, find_in_bases st f bs nm = Done (Some m) -> P m.
Proof.
  intros Hf. induction bs as [|[b|s] bs IH]; intros m H; simpl in H.
  - discriminate.
  - destruct (get_obj st b) as [bo| |]; try discriminate. cbn [bind] in H.
    destruct (is_Class bo); [|now apply IH].
    destruct (f b nm) as [[m'|]| |] eqn:Hb; try discriminate; cbn [bind] in H.
    + injection H as <-. eapply Hf; eauto.
    + now apply IH.
  - now apply IH.
Qed.

(** X5: what [find] returns is a member with the name asked for, of a
    module or class of the tree; and a member of the class itself is
    returned without its bases being resolved, whatever they are. *)
Theorem find_returns_named_member st nm :
  (forall fuel c m,
     find fuel st c nm = Done (Some m) ->
     exists mo b bo,
       objs st !! m = Some mo /\ name mo = nm
       /\ objs st !! b = Some bo /\ HasMembers bo = true
       /\ In m (members bo))
  /\ (forall fuel c co m,
        objs st !! c = Some co -> get_member st co nm = Some m ->
        find (S fuel) st c nm = Done (Some m)).
Proof.
  split.
  - induction fuel as [|f IH]; intros c m H; [discriminate|].
    rewrite find_S in H. unfold find_body, get_obj in H.
    destruct (objs st !! c) as [co|] eqn:Hc; [|discriminate].
    cbn [bind] in H.
    destruct (get_member st co nm) as [m'|] eqn:Hg.
    + injection H as <-. apply get_member_Some in Hg.
      destruct Hg as (Hh & Hin & mo & Hm & Hn).
      exists mo, c, co. repeat split; assumption.
    + destruct (resolved_bases_body st (expand_name f st) c) as [bs| |];
        try discriminate.
      cbn [bind] in H.
      revert m H.
      apply (find_in_bases_member st (find f st) nm
               (fun m => exists mo b bo,
                  objs st !! m = Some mo /\ name mo = nm
                  /\ objs st !! b = Some bo /\ HasMembers bo = true
                  /\ In m (members bo))).
      intros b m' Hb. eapply IH; eauto.
  - intros fuel c co m Hc Hg. rewrite find_S. unfold find_body, get_obj.
    rewrite Hc. cbn [bind]. now rewrite Hg.
Qed.

Lemma find_returns_named_member_witness :
  find 1 st_cyclic_member 1 "x" = Done (Some 2).
Proof.
  apply (proj2 (find_returns_named_member st_cyclic_member "x") 0 1
           (obj "A" (KClass ["B"]) (Some 0) [2]) 2); reflexivity.
Defined.

Lemma first_member_undefined st nm :
  never_defines st nm -> forall l, first_member st l nm = None.
Proof.
  intros Hno. induction l as [|[b|s] l IH]; simpl; auto.
  destruct (objs st !! b) as [bo|]; [|exact IH].
  destruct (is_Class bo); [|exact IH].
  destruct (get_member st bo nm) as [m|] eqn:Hg; [|exact IH].
  apply get_member_Some in Hg. destruct Hg as (_ & _ & mo & Hm & Hn).
  exfalso. eapply Hno; [eapply lookup_In|]; eauto.
Qed.

(** X6: for a class whose bases can be enumerated to their end, [find]
    returns [None] on a name that no object of the tree has. *)
Theorem find_undefined st n c co l nm :
  objs st !! c = Some co -> is_Class co = true ->
  all_bases n st c true = Done l ->
  never_defines st nm ->
  forall fuel, n <= fuel -> find fuel st c nm = Done None.
Proof.
  intros Hc Hcls Hall Hno fuel Hfuel.
  apply (find_mono st n fuel); [exact Hfuel|].
  rewrite (find_all_bases n st c co l nm Hc Hcls Hall).
  now rewrite first_member_undefined.
Qed.

Lemma find_undefined_witness :
  find 3 st_diamond 5 "zzz" = Done None.
Proof.
  eapply (find_undefined st_diamond 3 5
            (obj "C" (KClass ["A"; "B"]) (Some 0) []));
    try reflexivity;
    first [lia | apply never_defines_check; reflexivity].
Defined.

(** ** Resolved bases *)

Lemma resolve_bases_entries st e p : forall bases l,
  resolve_bases st e p bases = Done l ->
  length l = length bases
  /\ Forall (fun b => match b with
                      | inl x => exists k, all_objects st !! k = Some x
                      | inr s => all_objects st !! s = None
                      end) l.
Proof.
  induction bases as [|base more IH]; intros l H; simpl in H.
  - injection H as <-. split; [reflexivity|constructor].
  - destruct p as [p'|]; [|discriminate].
    destruct (e p' base true []) as [n1| |] eqn:He; try discriminate.
    cbn [bind] in H. unfold dsd_get in H.
    destruct (all_objects st !! n1) as [x|] eqn:Hreg; cbn [bind] in H.
    + destruct (resolve_bases st e (Some p') more) as [bs| |] eqn:Hbs;
        try discriminate.
      cbn [bind] in H. injection H as <-.
      destruct (IH bs eq_refl) as [Hlen Hall].
      split; [simpl; now rewrite Hlen|]. constructor; eauto.
    + cbn [bind] in H.
      destruct (resolve_bases st e (Some p') more) as [bs| |] eqn:Hbs;
        try discriminate.
      cbn [bind] in H. injection H as <-.
      destruct (IH bs eq_refl) as [Hlen Hall].
      split; [simpl; now rewrite Hlen|]. constructor; auto.
Qed.



(** ** Exceptions *)

Lemma is_exception_S f st self :
  is_exception (S f) st self
  = do bs <- resolved_bases f st self;
    (fix scan (bs : list (oid + string)) : outcome bool :=
       match bs with
       | [] => Done false
       | b :: more =>
           match b with
           | inl bi =>
               do bo <- get_obj st bi;
               if is_Class bo then
                 do r <- is_exception f st bi;
                 if r : bool then Done true else scan more
               else scan more
           | inr _ => if in_exceptions b then Done true else scan more
           end
       end) bs.
Proof. reflexivity. Qed.

(** X8: for a class whose bases can be enumerated to their end,
    [is_exception] tells whether one of the items enumerated is a string
    of [_exceptions]: a base that did not resolve to an object of the
    tree, of the class or of a class among its bases. *)
Theorem is_exception_unresolved_base n : forall st c l,
  all_bases n st c true = Done l ->
  is_exception n st c = Done (existsb in_exceptions l).
Proof.
  induction n as [|f IH]; intros st c l Hall; [discriminate|].
  cbn [all_bases] in Hall. apply bind_Done in Hall.
  destruct Hall as (bs & Hbs & Hall).
  apply bind_Done in Hall. destruct Hall as (below & Hbelow & Hall).
  injection Hall as <-.
  rewrite is_exception_S, Hbs. cbn [bind].
  change (existsb in_exceptions (inl c :: below))
    with (existsb in_exceptions below).
  clear Hbs. revert below Hbelow.
  induction bs as [|[b|s] bs IHbs]; intros below Hbelow.
  - injection Hbelow as <-. reflexivity.
  - apply bind_Done in Hbelow. destruct Hbelow as (ys & Hys & Hbelow).
    apply bind_Done in Hbelow. destruct Hbelow as (zs & Hzs & Hbelow).
    injection Hbelow as <-. rewrite existsb_app.
    apply bind_Done in Hys. destruct Hys as (bo & Hbo & Hys).
    rewrite Hbo. cbn [bind].
    destruct (is_Class bo).
    + rewrite (IH st b ys Hys). cbn [bind].
      destruct (existsb in_exceptions ys); [reflexivity|].
      now apply IHbs.
    + injection Hys as <-. simpl. now apply IHbs.
  - apply bind_Done in Hbelow. destruct Hbelow as (ys & Hys & Hbelow).
    apply bind_Done in Hbelow. destruct Hbelow as (zs & Hzs & Hbelow).
    injection Hbelow as <-. injection Hys as <-.
    change ([inr s] ++ zs)%list with (inr s :: zs : list (oid + string)).
    cbn [existsb].
    destruct (in_exceptions (inr s)); [reflexivity|]. now apply IHbs.
Qed.

Lemma is_exception_unresolved_base_witness :
  is_exception 3 st_errors 2
  = Done (existsb in_exceptions [inl 2; inl 1; inr "ValueError"]).
Proof.
  apply (is_exception_unresolved_base 3 st_errors 2). reflexivity.
Defined.

Example errors_computed : is_exception 3 st_errors 2 = Done true.
Proof. reflexivity. Qed.

(** ** Sources of documentation *)

Lemma base_members_named st nm : forall l,
  Forall (fun m => exists mo, objs st !! m = Some mo /\ name mo = nm)
    (base_members st l nm).
Proof.
  induction l as [|[b|s] l IH]; simpl; [constructor| |exact IH].
  destruct (objs st !! b) as [bo|]; [|exact IH].
  destruct (get_member st bo nm) as [m|] eqn:Hg; [|exact IH].
  constructor; [|exact IH].
  apply get_member_Some in Hg. destruct Hg as (_ & _ & mo & Hm & Hn). eauto.
Qed.

(** X9: [doc_sources], when it returns, gives the object itself first,
    followed only by objects of its name; and it gives the object alone
    if it is a module or a class, if it has no parent or if its parent is
    no class. *)
Theorem doc_sources_self_first fuel st self o l :
  objs st !! self = Some o ->
  doc_sources fuel st self = Done l ->
  (exists rest,
     l = self :: rest
     /\ Forall (fun m => exists mo, objs st !! m = Some mo
                                    /\ name mo = name o) rest)
  /\ (Inheritable o = false \/ parent o = None
      \/ (exists p po, parent o = Some p /\ objs st !! p = Some po
                       /\ is_Class po = false) ->
      l = [self]).
Proof.
  intros Ho H. unfold doc_sources, get_obj in H. rewrite Ho in H.
  cbn [bind] in H.
  destruct (Inheritable o) eqn:Hi.
  - destruct (parent o) as [p|] eqn:Hp.
    + destruct (objs st !! p) as [po|] eqn:Hpo; [|discriminate].
      cbn [bind] in H. destruct (is_Class po) eqn:Hcls; cbn [negb] in H.
      * apply bind_Done in H. destruct H as (bs & Hbs & H).
        injection H as <-. split.
        -- eexists. split; [reflexivity|]. apply base_members_named.
        -- intros [Hf|[Hf|(p' & po' & Hp' & Hpo' & Hc')]];
             try discriminate.
           injection Hp' as <-. rewrite Hpo in Hpo'. injection Hpo' as <-.
           congruence.
      * injection H as <-. split; [|reflexivity].
        exists []. split; [reflexivity|constructor].
    + injection H as <-. split; [|reflexivity].
      exists []. split; [reflexivity|constructor].
  - injection H as <-. split; [|reflexivity].
    exists []. split; [reflexivity|constructor].
Qed.

Lemma doc_sources_self_first_witness :
  (exists rest,
     [4; 2] = 4 :: rest
     /\ Forall (fun m => exists mo, objs st_override !! m = Some mo
                 /\ name mo = name (obj "run" KFunction (Some 3) [])) rest)
  /\ (Inheritable (obj "run" KFunction (Some 3) []) = false
      \/ parent (obj "run" KFunction (Some 3) []) = None
      \/ (exists p po, parent (obj "run" KFunction (Some 3) []) = Some p
                       /\ objs st_override !! p = Some po
                       /\ is_Class po = false) ->
      [4; 2] = [4]).
Proof.
  apply (doc_sources_self_first 3 st_override 4
           (obj "run" KFunction (Some 3) [])); reflexivity.
Defined.

(** ** Aliases left alone *)

Lemma member_full_name_flag st e m mo ch :
  (is_Indirection mo = false ->
   member_full_name st e m mo false ch = full_name st m)
  /\ (is_Indirection mo = true ->
      member_full_name st e m mo false ch
      = member_full_name st e m mo true ch).
Proof.
  unfold member_full_name. cbn [andb]. split; intros H; rewrite H.
  - reflexivity.
  - unfold is_Indirection in H. unfold is_Data.
    destruct (kind mo); try discriminate. reflexivity.
Qed.

(** X10: with [follow_aliases=False], a name without a dot that the
    local lookup finds as an alias, or as anything but an indirection,
    expands to the full name of the member found; an indirection is
    followed all the same, and the name expands as with
    [follow_aliases=True]. *)
Theorem expand_without_following st E N m mo ch :
  local_member st (depth_bound st) E N = Some m ->
  objs st !! m = Some mo ->
  dot_free N = true ->
  (is_Indirection mo = false ->
   forall fn fuel, full_name st m = Done fn ->
                   expand_name (S fuel) st E N false ch = Done fn)
  /\ (is_Indirection mo = true ->
      forall fuel, expand_name fuel st E N false ch
                   = expand_name fuel st E N true ch).
Proof.
  intros Hl Hm Hd. split.
  - intros Hi fn fuel Hfn. rewrite expand_name_S. unfold expand_name_body.
    rewrite (DottedName_dot_free N Hd). apply expand_loop_single.
    rewrite (local_member_found st _ N false ch _ E m mo Hl Hm).
    now rewrite (proj1 (member_full_name_flag st _ m mo ch) Hi).
  - intros Hi [|fuel]; [reflexivity|].
    rewrite !expand_name_S. unfold expand_name_body.
    rewrite (DottedName_dot_free N Hd). cbn [expand_loop].
    rewrite (local_member_found st _ N false ch _ E m mo Hl Hm).
    rewrite (local_member_found st _ N true ch _ E m mo Hl Hm).
    now rewrite (proj2 (member_full_name_flag st _ m mo ch) Hi).
Qed.

Lemma expand_without_following_witness :
  expand_name 1 st_alias_import 0 "P" false [] = Done "m.P"
  /\ expand_name 2 st_alias_import 0 "os" false []
     = expand_name 2 st_alias_import 0 "os" true [].
Proof.
  split.
  - refine (proj1 (expand_without_following st_alias_import 0 "P" 2
              (obj "P" (KData (Some ("os", EName "os"))) (Some 0) []) []
              _ _ _) _ "m.P" 0 _); reflexivity.
  - refine (proj2 (expand_without_following st_alias_import 0 "os" 1
              (obj "os" (KIndirection "os") (Some 0) []) []
              _ _ _) _ 2); reflexivity.
Defined.

(** ** Scopes *)

Lemma _local_to_full_name_S st e n self nm follow ch :
  _local_to_full_name st e (S n) self nm follow ch
  = do o <- get_obj st self;
    if negb (HasMembers o) then
      match parent o with
      | None => Raised AssertionError
      | Some p => _local_to_full_name st e n p nm follow ch
      end
    else
      match get_member st o nm with
      | Some m =>
          do mo <- get_obj st m;
          member_full_name st e m mo follow ch
      | None =>
          if is_Class o then
            match parent o with
            | None => Raised AssertionError
            | Some p => _local_to_full_name st e n p nm follow ch
            end
          else Done nm
      end.
Proof. reflexivity. Qed.

(** Within a well-formed chain of parents, one more link allowed changes
    nothing. *)
Lemma _local_to_full_name_bound st e nm follow ch : forall n self,
  reaches_root st n self = true ->
  _local_to_full_name st e (S n) self nm follow ch
  = _local_to_full_name st e n self nm follow ch.
Proof.
  induction n as [|n IH]; intros self Hr; [discriminate|].
  rewrite (_local_to_full_name_S st e (S n)), (_local_to_full_name_S st e n).
  destruct (reaches_root_lookup st _ _ Hr) as [o Ho].
  unfold get_obj at 1 3. rewrite Ho. cbn [bind].
  destruct (parent o) as [p|] eqn:Hp; [|reflexivity].
  pose proof (reaches_root_parent st n self o p Hr Ho Hp) as Hrp.
  destruct (negb (HasMembers o)); [now apply IH|].
  destruct (get_member st o nm); [reflexivity|].
  destruct (is_Class o); [now apply IH|reflexivity].
Qed.

(** Where the local lookup of every first part goes on in [p], the
    expansion from [c] is that from [p]. *)
Lemma expand_name_defers st c p nm follow ch :
  (forall e part rest,
     DottedName [nm] = part :: rest ->
     _local_to_full_name st e (depth_bound st) c part follow ch
     = _local_to_full_name st e (depth_bound st) p part follow ch) ->
  forall fuel, expand_name fuel st c nm follow ch
               = expand_name fuel st p nm follow ch.
Proof.
  intros H [|fuel]; [reflexivity|].
  rewrite !expand_name_S. unfold expand_name_body.
  destruct (DottedName [nm]) as [|part rest] eqn:Hparts; [reflexivity|].
  cbn [expand_loop]. rewrite (H _ part rest eq_refl).
  destruct (_local_to_full_name st (expand_name fuel st) (depth_bound st) p
              part follow ch) as [fn| |]; [|reflexivity|reflexivity].
  cbn [bind]. change (negb (Nat.eqb 0 0)) with false.
  rewrite andb_false_r. reflexivity.
Qed.

Lemma local_defers st e c co p nm follow ch :
  wf_store st = true -> objs st !! c = Some co -> parent co = Some p ->
  (HasMembers co = false
   \/ (is_Class co = true /\ get_member st co nm = None)) ->
  _local_to_full_name st e (depth_bound st) c nm follow ch
  = _local_to_full_name st e (depth_bound st) p nm follow ch.
Proof.
  intros Hwf Hc Hp Hcase.
  pose proof (wf_reaches st c Hwf (lookup_valid st c co Hc)) as Hr.
  destruct (depth_bound st) as [|n]; [discriminate|].
  pose proof (reaches_root_parent st n c co p Hr Hc Hp) as Hrp.
  rewrite (_local_to_full_name_bound st e nm follow ch n p Hrp).
  rewrite _local_to_full_name_S. unfold get_obj. rewrite Hc. cbn [bind].
  rewrite Hp. destruct Hcase as [Hn|[Hcls Hg]].
  - now rewrite Hn.
  - unfold HasMembers. rewrite Hcls, orb_true_r, Hg. reflexivity.
Qed.

(** X11: in a well-formed tree an object that is no module and no class
    expands every name as its parent does. *)
Theorem expand_name_of_non_container st E o p :
  wf_store st = true -> objs st !! E = Some o -> parent o = Some p ->
  HasMembers o = false ->
  forall fuel nm follow ch,
    expand_name fuel st E nm follow ch = expand_name fuel st p nm follow ch.
Proof.
  intros Hwf Ho Hp Hn fuel nm follow ch.
  apply expand_name_defers. intros e part rest _.
  eapply local_defers; eauto.
Qed.

Lemma expand_name_of_non_container_witness :
  expand_name 1 st_scopes 3 "helper" true []
  = expand_name 1 st_scopes 2 "helper" true [].
Proof.
  apply (expand_name_of_non_container st_scopes 3
           (obj "run" KFunction (Some 2) []) 2); reflexivity.
Defined.

(** X12: in a well-formed tree a class expands a name whose first part
    is none of its members as the scope enclosing it does: the lookup
    goes to the parent of the class, not to its bases. *)
Theorem expand_name_class_defers st c co p nm part rest :
  wf_store st = true -> objs st !! c = Some co -> parent co = Some p ->
  is_Class co = true ->
  DottedName [nm] = part :: rest ->
  get_member st co part = None ->
  forall fuel follow ch,
    expand_name fuel st c nm follow ch = expand_name fuel st p nm follow ch.
Proof.
  intros Hwf Hc Hp Hcls Hparts Hg fuel follow ch.
  apply expand_name_defers. intros e part' rest' Hparts'.
  rewrite Hparts in Hparts'. injection Hparts' as <- <-.
  eapply local_defers; eauto.
Qed.

Lemma expand_name_class_defers_witness :
  expand_name 1 st_scopes 2 "helper.x" true []
  = expand_name 1 st_scopes 0 "helper.x" true [].
Proof.
  apply (expand_name_class_defers st_scopes 2
           (obj "C" (KClass []) (Some 0) [3]) 0 "helper.x" "helper" ["x"]);
    reflexivity.
Defined.

(** X13: in a well-formed tree, a name whose first part is the name of no
    object and no key of the registry expands to itself, from every
    object and whatever its other parts; [resolve_name] then returns what
    the registry holds under the name itself. *)
Theorem expand_unknown_head st E nm h rest :
  wf_store st = true -> valid st E = true ->
  DottedName [nm] = h :: rest ->
  never_defines st h ->
  all_objects st !! h = None ->
  forall fuel follow ch,
    expand_name (S fuel) st E nm follow ch = Done nm
    /\ resolve_name (S fuel) st E nm follow
       = Done (all_objects st !! nm).
Proof.
  intros Hwf Hv Hparts Hno Hreg fuel follow.
  assert (He : forall ch, expand_name (S fuel) st E nm follow ch = Done nm).
  { intros ch. rewrite expand_name_S. unfold expand_name_body.
    rewrite Hparts. cbn [expand_loop].
    rewrite (local_unknown st _ h follow ch Hno _ _ (wf_reaches st E Hwf Hv)).
    cbn [bind]. change (negb (Nat.eqb 0 0)) with false.
    rewrite andb_false_r. cbn [bind]. cbv beta iota.
    unfold dsd_get. rewrite Hreg. unfold finish.
    rewrite <- Hparts. unfold DottedName at 2. simpl flat_map.
    rewrite app_nil_r, str_DottedName_pieces, concat_split_dot.
    reflexivity. }
  intros ch. split; [apply He|].
  unfold resolve_name. rewrite He. reflexivity.
Qed.

Lemma expand_unknown_head_witness :
  expand_name 1 st_scopes 3 "json.loads" true [] = Done "json.loads"
  /\ resolve_name 1 st_scopes 3 "json.loads" true
     = Done (all_objects st_scopes !! "json.loads").
Proof.
  apply (expand_unknown_head st_scopes 3 "json.loads" "json" ["loads"]);
    try reflexivity.
  apply never_defines_check. reflexivity.
Defined.


(** ** Export lists of string literals *)

Lemma all_names_strings st self : forall names idx acc log,
  all_names st self idx (map (fun s => EConstant (CStr s)) names) acc log
  = Done ((acc ++ names)%list, log).
Proof.
  induction names as [|s names IH]; intros idx acc log; simpl.
  - now rewrite app_nil_r.
  - rewrite IH, <- app_assoc. reflexivity.
Qed.



(** ** The calls that resolution makes *)

Ltac same_step :=
  match goal with
  | |- ?x = ?x => reflexivity
  | |- bind ?c _ = bind ?c _ =>
      destruct c; cbn [bind]; [|reflexivity|reflexivity]
  | |- match ?d with _ => _ end = match ?d with _ => _ end => destruct d eqn:?
  | |- or_else ?r _ = or_else ?r _ => reflexivity
  end.

Section Calls.

Variable st : ApiObjectsRoot.
Variables e e' : oid -> string -> bool -> list oid -> outcome string.
Variable f : oid -> string -> outcome (option oid).
Hypothesis Hsame :
  forall ctx target ch,
    1 <= length ch <= S _RESOLVE_ALIAS_MAX_RECURSE ->
    e ctx target true ch = e' ctx target true ch.

Lemma _resolve_indirection_calls ind ch :
  _resolve_indirection st e ind ch = _resolve_indirection st e' ind ch.
Proof.
  unfold _resolve_indirection.
  destruct (truthy ch && Nat.ltb _RESOLVE_ALIAS_MAX_RECURSE (length ch))
    eqn:Hcut; [reflexivity|].
  assert (Hlen : 1 <= length (ch ++ [ind])%list
                 <= S _RESOLVE_ALIAS_MAX_RECURSE).
  { rewrite length_app. simpl. apply andb_false_iff in Hcut.
    destruct Hcut as [H|H].
    - destruct ch; [simpl; unfold _RESOLVE_ALIAS_MAX_RECURSE; lia|discriminate].
    - apply Nat.ltb_ge in H. lia. }
  repeat same_step; rewrite (Hsame _ _ _ Hlen); reflexivity.
Qed.

Lemma member_full_name_calls m mo follow ch :
  member_full_name st e m mo follow ch = member_full_name st e' m mo follow ch.
Proof.
  unfold member_full_name.
  destruct (follow && is_Data mo && is_alias mo).
  - destruct (_alias_indirection m mo); cbn [bind]; try reflexivity.
    now rewrite _resolve_indirection_calls.
  - now rewrite _resolve_indirection_calls.
Qed.

Lemma _local_to_full_name_calls nm follow ch : forall n self,
  _local_to_full_name st e n self nm follow ch
  = _local_to_full_name st e' n self nm follow ch.
Proof.
  induction n as [|n IH]; intros self; [reflexivity|].
  rewrite !_local_to_full_name_S.
  repeat same_step; try apply IH. apply member_full_name_calls.
Qed.

Lemma expand_loop_calls follow ch : forall parts ctx i,
  expand_loop st e f ctx i parts follow ch
  = expand_loop st e' f ctx i parts follow ch.
Proof.
  induction parts as [|part rest IH]; intros ctx i; [reflexivity|].
  cbn [expand_loop]. rewrite _local_to_full_name_calls.
  repeat same_step; apply IH.
Qed.

End Calls.

(** X15: [expand_name] calls itself only with [follow_aliases=True] and
    with one to six followed indirections: two callees that agree on
    these calls give the same expansion, whatever the chain it starts
    from. *)
Theorem expand_name_calls_bounded st e e' f self nm follow ch :
  (forall ctx target ch',
     1 <= length ch' <= 6 ->
     e ctx target true ch' = e' ctx target true ch') ->
  expand_name_body st e f self nm follow ch
  = expand_name_body st e' f self nm follow ch.
Proof.
  intros H. unfold expand_name_body. now apply expand_loop_calls.
Qed.

Lemma expand_name_calls_bounded_witness :
  expand_name_body st_chain7 (expand_name 7 st_chain7)
    (find 7 st_chain7) 0 "a0" true []
  = expand_name_body st_chain7
      (fun ctx target follow ch' =>
         if follow && Nat.leb 1 (length ch') && Nat.leb (length ch') 6
         then expand_name 7 st_chain7 ctx target follow ch'
         else Raised AssertionError)
      (find 7 st_chain7) 0 "a0" true [].
Proof.
  apply (expand_name_calls_bounded st_chain7).
  intros ctx target ch' [H1 H2]. cbn [andb].
  apply Nat.leb_le in H1, H2. now rewrite H1, H2.
Defined.

(** ** Indirections that name themselves *)



(** ** Names of two parts *)

Lemma scope_lacks_local st e nm follow ch : forall n self,
  scope_lacks st n self nm = true ->
  _local_to_full_name st e n self nm follow ch = Done nm.
Proof.
  induction n as [|n IH]; intros self H; [discriminate|].
  simpl in H. rewrite _local_to_full_name_S. unfold get_obj.
  destruct (objs st !! self) as [o|]; [|discriminate]. cbn [bind].
  destruct (negb (HasMembers o)).
  - destruct (parent o); [now apply IH|discriminate].
  - destruct (get_member st o nm); [discriminate|].
    destruct (is_Class o); [|reflexivity].
    destruct (parent o); [now apply IH|discriminate].
Qed.

Lemma DottedName_two X part :
  dot_free X = true -> dot_free part = true ->
  DottedName [X ++ "." ++ part] = [X; part].
Proof.
  intros HX Hp. unfold DottedName. simpl. rewrite app_nil_r.
  rewrite split_dot_app_dot by exact HX.
  now rewrite split_dot_dot_free.
Qed.

Lemma expand_loop_cons st e f ctx i part rest follow ch :
  expand_loop st e f ctx i (part :: rest) follow ch
  = do fn <- _local_to_full_name st e (depth_bound st) ctx part follow ch;
    do r <-
      (if String.eqb fn part && negb (Nat.eqb i 0) then
         do co <- get_obj st ctx;
         do fn' <-
           (if is_Class co then
              do f0 <- f ctx part;
              match f0 with
              | Some f1 => full_name st f1
              | None => Done fn
              end
            else Done fn);
         if String.eqb fn' part then
           do cfn <- full_name st ctx;
           Done (cfn ++ "." ++ part, true)
         else Done (fn', false)
       else Done (fn, false));
    let '(fn, stop) := r in
    if stop : bool then finish fn rest
    else
      match dsd_get fn (all_objects st) with
      | None => finish fn rest
      | Some nxt =>
          match rest with
          | [] => finish fn []
          | _ :: _ => expand_loop st e f nxt (S i) rest follow ch
          end
      end.
Proof. reflexivity. Qed.

(** The loop on [X.part], once [X] is found to be the registered plain
    member [c]: what is left is the step for [part] in the context
    [c]. *)
Lemma expand_loop_two st e f E X part c co fc follow ch :
  local_member st (depth_bound st) E X = Some c ->
  objs st !! c = Some co -> is_link co = false ->
  full_name st c = Done fc ->
  all_objects st !! fc = Some c ->
  expand_loop st e f E 0 [X; part] follow ch
  = expand_loop st e f c 1 [part] follow ch.
Proof.
  intros Hl Hc Hk Hfc Hreg.
  etransitivity; [apply expand_loop_cons|].
  rewrite (local_member_found st e X follow ch _ E c co Hl Hc).
  rewrite (member_full_name_plain st e c co follow ch Hk), Hfc.
  cbn [bind]. change (negb (Nat.eqb 0 0)) with false.
  rewrite andb_false_r. cbn [bind]. cbv beta iota.
  unfold dsd_get. rewrite Hreg. reflexivity.
Qed.

Lemma finish_single st fn :
  match dsd_get fn (all_objects st) with
  | Some _ => finish fn []
  | None => finish fn []
  end = Done fn.
Proof.
  unfold finish. rewrite str_DottedName_single.
  now destruct (dsd_get fn (all_objects st)).
Qed.



(** X18: in [X.part], where [X] names a registered class [c] and no
    scope from [c] outwards has a member named [part], the part is
    looked up with [find]: the name expands to the full name of the
    inherited member found, and to the full name of [c], a dot and the
    part if [find] finds none. *)
Theorem expand_member_inherited st E X part c co fc fuel follow ch :
  dot_free X = true -> dot_free part = true ->
  local_member st (depth_bound st) E X = Some c ->
  objs st !! c = Some co -> is_link co = false -> is_Class co = true ->
  full_name st c = Done fc ->
  all_objects st !! fc = Some c ->
  scope_lacks st (depth_bound st) c part = true ->
  (forall am fam,
     find fuel st c part = Done (Some am) ->
     full_name st am = Done fam -> fam <> part ->
     expand_name (S fuel) st E (X ++ "." ++ part) follow ch = Done fam)
  /\ (find fuel st c part = Done None ->
      expand_name (S fuel) st E (X ++ "." ++ part) follow ch
      = Done (fc ++ "." ++ part)).
Proof.
  intros HX Hp Hl Hc Hk Hcls Hfc Hreg Hlack.
  assert (Hstep : expand_name (S fuel) st E (X ++ "." ++ part) follow ch
    = do fn' <- (do f0 <- find fuel st c part;
                 match f0 with
                 | Some f1 => full_name st f1
                 | None => Done part
                 end);
      do r <- (if String.eqb fn' part
               then Done (fc ++ "." ++ part, true)
               else Done (fn', false));
      Done (fst r)).
  { rewrite expand_name_S. unfold expand_name_body.
    rewrite (DottedName_two X part HX Hp).
    rewrite (expand_loop_two st _ _ E X part c co fc follow ch
               Hl Hc Hk Hfc Hreg).
    cbn [expand_loop].
    rewrite (scope_lacks_local st _ part follow ch _ c Hlack).
    cbn [bind]. rewrite String.eqb_refl. cbn [andb negb Nat.eqb].
    unfold get_obj. rewrite Hc. cbn [bind]. rewrite Hcls.
    destruct (find fuel st c part) as [[am|]| |]; cbn [bind];
      try reflexivity.
    - destruct (full_name st am) as [fam| |]; cbn [bind]; try reflexivity.
      destruct (String.eqb fam part); cbn [bind].
      + rewrite Hfc. cbn [bind]. cbv beta iota. unfold finish.
        now rewrite str_DottedName_single.
      + cbv beta iota. apply finish_single.
    - rewrite String.eqb_refl, Hfc. cbn [bind]. cbv beta iota.
      unfold finish. now rewrite str_DottedName_single. }
  split.
  - intros am fam Hf Hfam Hne. rewrite Hstep, Hf. cbn [bind].
    rewrite Hfam. cbn [bind]. apply String.eqb_neq in Hne.
    now rewrite Hne.
  - intros Hf. rewrite Hstep, Hf. cbn [bind].
    now rewrite String.eqb_refl.
Qed.

Lemma expand_member_inherited_witness :
  expand_name 3 st_diamond 0 ("C" ++ "." ++ "m") true [] = Done "m.A.m"
  /\ expand_name 3 st_diamond 0 ("C" ++ "." ++ "zzz") true []
     = Done ("m.C" ++ "." ++ "zzz").
Proof.
  split.
  - refine (proj1 (expand_member_inherited st_diamond 0 "C" "m" 5
              (obj "C" (KClass ["A"; "B"]) (Some 0) []) "m.C" 2 true []
              _ _ _ _ _ _ _ _ _) 2 "m.A.m" _ _ _);
      try reflexivity. discriminate.
  - refine (proj2 (expand_member_inherited st_diamond 0 "C" "zzz" 5
              (obj "C" (KClass ["A"; "B"]) (Some 0) []) "m.C" 2 true []
              _ _ _ _ _ _ _ _ _) _); reflexivity.
Defined.

(** ** Names that leave the tree *)

Lemma expand_loop_single_inv st e f ctx part follow ch fn :
  expand_loop st e f ctx 0 [part] follow ch = Done fn ->
  _local_to_full_name st e (depth_bound st) ctx part follow ch = Done fn.
Proof.
  cbn [expand_loop].
  destruct (_local_to_full_name st e (depth_bound st) ctx part follow ch)
    as [v| |]; try discriminate.
  cbn [bind]. change (negb (Nat.eqb 0 0)) with false.
  rewrite andb_false_r. cbn [bind]. cbv beta iota.
  unfold finish. rewrite str_DottedName_single.
  destruct (dsd_get v (all_objects st)); congruence.
Qed.

(** X19: where the first part of a name expands to a name that is no
    key of the registry, the name expands to that expansion followed by
    a dot and the rest of the name as it is written. *)
Theorem expand_name_appends_rest st E X tail fx fuel follow ch :
  dot_free X = true ->
  expand_name (S fuel) st E X follow ch = Done fx ->
  all_objects st !! fx = None ->
  expand_name (S fuel) st E (X ++ "." ++ tail) follow ch
  = Done (fx ++ "." ++ tail).
Proof.
  intros HX He Hreg. rewrite expand_name_S in *.
  unfold expand_name_body in *. rewrite (DottedName_dot_free X HX) in He.
  apply expand_loop_single_inv in He.
  unfold DottedName. simpl flat_map. rewrite app_nil_r.
  rewrite split_dot_app_dot by exact HX.
  cbn [expand_loop]. rewrite He. cbn [bind].
  change (negb (Nat.eqb 0 0)) with false. rewrite andb_false_r.
  cbn [bind]. cbv beta iota. unfold dsd_get. rewrite Hreg.
  unfold finish. rewrite str_DottedName_pieces.
  pose proof (split_dot_not_nil tail) as Hn.
  destruct (split_dot tail) as [|t ts] eqn:Ht; [contradiction|].
  rewrite concat_cons_cons, <- Ht, concat_split_dot. reflexivity.
Qed.

Lemma expand_name_appends_rest_witness :
  expand_name 2 st_import 0 ("path" ++ "." ++ "join") true []
  = Done ("os.path" ++ "." ++ "join").
Proof.
  apply (expand_name_appends_rest st_import 0 "path" "join" "os.path" 1
           true []); reflexivity.
Defined.
